(** * rust-cache: segmented download engine and cache-key resolution

    A shallow embedding of [src/cache/internal/downloadUtils.ts] (the
    concurrent HTTP range downloader with its retry wrapper) and of the
    object-storage cache client that follows it in the same file
    ([getCacheVersion], [getCacheEntry], [saveCache]), together with the
    properties of both that the specification states.  The progress display,
    the single-stream download, the storage-SDK download of the same file
    and the command runner of [utils] are embedded as well, with further
    properties read off the code.

    Conventions of the embedding.
    - A JavaScript number that holds an integer is a [Z]; the code only adds,
      subtracts and compares lengths and block offsets, which is exact below
      2^53.  A string is the sequence of its bytes.
    - [undefined] is [None] of an [option].
    - A promise is represented by the value it settles to, an [outcome]:
      [Returned v] when it fulfils and [Thrown e] when it rejects.
    - [Promise.race] over the in-flight fetches is resolved by a schedule: a
      list of naturals, each naming which of the in-flight promises settles
      first at that point.  Every statement quantifies over all schedules.
    - Calls to collaborators outside the file (the HTTP client, the storage
      SDK, the console, the file system) are either parameters that give the
      reply, or events appended to a trace. *)

From Stdlib Require Import ZArith List Ascii String DecimalString DecimalPos.
From Stdlib Require Import Lia Permutation.
From stdpp Require Import gmap strings list fin_maps.
From Equations Require Import Equations.
Import ListNotations.

Local Open Scope string_scope.
Local Open Scope list_scope.
Local Open Scope Z_scope.

(** ** JavaScript values shared by both halves of the file *)

(** What a [catch (error)] can receive: the two error classes of the storage
    SDK that the code tests with [instanceof], and any other thrown value
    (an [Error] with its message). *)
Inductive error : Type :=
| TosClientError (message stack : string)
| TosServerError (requestId : string) (statusCode : Z) (headers code message : string)
| Error (message : string).

(** A finished call or a settled promise. *)
Inductive outcome (A : Type) : Type :=
| Returned (a : A)
| Thrown (e : error).
Arguments Returned {A} a.
Arguments Thrown {A} e.

(** ** The segmented downloader *)

(** [declare class DownloadSegment]. *)
Record DownloadSegment : Type := {
  offset : Z;
  count : Z;
  buffer : list Byte.byte
}.

(** What one [downloadSegment] call raced against the per-attempt timer by
    [promiseWithTimeout] gives: the call settles first (with the body bytes
    or with a failure), or the timer does and the race yields 'timeout'. *)
Inductive attempt : Type :=
| Settles (body : outcome (list Byte.byte))
| TimerFirst.

(** The network as the downloader sees it: the [n]-th attempt (from 0) at the
    range starting at [offset] of length [count]. *)
Definition network : Type := Z -> Z -> nat -> attempt.

(** [downloadSegment]: the segment carries the requested offset and count and
    the bytes read from the response. *)
Definition downloadSegment (body : outcome (list Byte.byte)) (offset count : Z)
  : outcome DownloadSegment :=
  match body with
  | Returned b => Returned {| offset := offset; count := count; buffer := b |}
  | Thrown e => Thrown e
  end.

(** [promiseWithTimeout]: the promise's own settlement, or the string
    'timeout' ([inr]). *)
Definition promiseWithTimeout (a : attempt) (offset count : Z)
  : outcome (DownloadSegment + string) :=
  match a with
  | Settles body =>
      match downloadSegment body offset count with
      | Returned s => Returned (inl s)
      | Thrown e => Thrown e
      end
  | TimerFirst => Returned (inr "timeout")
  end.

(** The body of the [try] block of [downloadSegmentRetry]. *)
Definition tryAttempt (a : attempt) (offset count : Z) : outcome DownloadSegment :=
  match promiseWithTimeout a offset count with
  | Returned (inl result) => Returned result
  | Returned (inr _) => Thrown (Error "downloadSegmentRetry failed due to timeout")
  | Thrown e => Thrown e
  end.

Definition retries : nat := 5.

(** The [while (true)] loop of [downloadSegmentRetry], entered with the
    current value of [failures].  Every failed attempt either rethrows (when
    [failures >= retries]) or increments [failures], so the attempt made with
    [failures = n] is the [n]-th one. *)
Equations? retryLoop (net : network) (offset count : Z) (failures : nat)
  : outcome DownloadSegment by wf (retries - failures)%nat lt :=
  retryLoop net offset count failures with
      tryAttempt (net offset count failures) offset count := {
    | Returned result => Returned result;
    | Thrown err with le_lt_dec retries failures := {
        | left _ => Thrown err;
        | right Hlt => retryLoop net offset count (S failures) } }.
Proof. unfold retries in *. lia. Qed.

Definition downloadSegmentRetry (net : network) (offset count : Z)
  : outcome DownloadSegment :=
  retryLoop net offset count 0.

(** [blockSize = 4 * 1024 * 1024]. *)
Definition blockSize : Z := 4 * 1024 * 1024.

(** An entry of the [downloads] array.  Its [promiseGetter] closure captures
    the loop's [offset] and [count]; the closure is kept as the pair of
    captured variables, and [promiseGetter] below runs it. *)
Record QueuedDownload : Type := {
  q_offset : Z;
  q_count : Z
}.

Definition promiseGetter (net : network) (d : QueuedDownload)
  : outcome DownloadSegment :=
  downloadSegmentRetry net (q_offset d) (q_count d).

(** The [for (let offset = 0; offset < length; offset += blockSize)] loop,
    entered with the current [offset] and the array built so far ([len] is
    the source's [length]). *)
Equations? partitionLoop (len offset : Z) (downloads : list QueuedDownload)
  : list QueuedDownload by wf (Z.to_nat (len - offset)) lt :=
  partitionLoop len offset downloads with Z_lt_dec offset len := {
    | left _ =>
        let count := Z.min blockSize (len - offset) in
        partitionLoop len (offset + blockSize)
          (downloads ++ [ {| q_offset := offset; q_count := count |} ]);
    | right _ => downloads }.
Proof. unfold blockSize. lia. Qed.

(** The blocks in the order the loop pushes them. *)
Definition blocks (len : Z) : list QueuedDownload := partitionLoop len 0 [].

(** [class DownloadProgress], without its wall-clock fields ([startTime],
    [timeoutHandle]). *)
Record DownloadProgress : Type := {
  contentLength : Z;
  segmentIndex : Z;
  segmentSize : Z;
  segmentOffset : Z;
  receivedBytes : Z;
  displayedComplete : bool
}.

Definition newDownloadProgress (contentLength : Z) : DownloadProgress :=
  {| contentLength := contentLength; segmentIndex := 0; segmentSize := 0;
     segmentOffset := 0; receivedBytes := 0; displayedComplete := false |}.

Definition nextSegment (p : DownloadProgress) (size : Z) : DownloadProgress :=
  {| contentLength := contentLength p;
     segmentIndex := segmentIndex p + 1;
     segmentSize := size;
     segmentOffset := segmentOffset p + segmentSize p;
     receivedBytes := 0;
     displayedComplete := displayedComplete p |}.

Definition setReceivedBytes (p : DownloadProgress) (received : Z) : DownloadProgress :=
  {| contentLength := contentLength p;
     segmentIndex := segmentIndex p;
     segmentSize := segmentSize p;
     segmentOffset := segmentOffset p;
     receivedBytes := received;
     displayedComplete := displayedComplete p |}.

Definition getTransferredBytes (p : DownloadProgress) : Z :=
  segmentOffset p + receivedBytes p.

Definition isDone (p : DownloadProgress) : bool :=
  getTransferredBytes p =? contentLength p.

(** One positioned write on the archive descriptor:
    [archiveDescriptor.write(buffer, 0, length, position)]. *)
Record FileWrite : Type := {
  w_buffer : list Byte.byte;
  w_length : Z;
  w_position : Z
}.

(** Where control stands in [downloadCacheHttpClientConcurrent] once the
    queue is built. *)
Inductive control : Type :=
| AtDispatch                (* the test of [while ((nextDownload = downloads.pop()))] *)
| AtLimitWait               (* [await waitAndWrite()] inside that loop *)
| AtDrain                   (* the test of [while (actives > 0)] *)
| Finished                  (* returned normally, [finally] done *)
| Rejected (e : error)      (* threw [e], [finally] done *)
| Pending.                  (* awaiting a race over no promise, which never settles *)

(** The local variables of the function, the archive written so far and the
    control point. *)
Record machine : Type := {
  pc : control;
  downloads : list QueuedDownload;
  actives : Z;
  bytesDownloaded : Z;
  progress : DownloadProgress;
  activeDownloads : gmap Z (outcome DownloadSegment);
  archive : list FileWrite
}.

(** [options.downloadConcurrency] and [options.timeoutInMs] of
    [DownloadOptions]. *)
Record DownloadOptions : Type := {
  downloadConcurrency : option Z;
  timeoutInMs : option Z
}.

(** [options.downloadConcurrency ?? 10]. *)
Definition concurrencyLimit (options : DownloadOptions) : Z :=
  match downloadConcurrency options with
  | Some n => n
  | None => 10
  end.

(** [Array.prototype.pop]: the last element and the array without it. *)
Definition pop {A : Type} (l : list A) : option (A * list A) :=
  match rev l with
  | [] => None
  | x :: r => Some (x, rev r)
  end.

Definition halt (c : control) (m : machine) : machine :=
  {| pc := c; downloads := downloads m; actives := actives m;
     bytesDownloaded := bytesDownloaded m; progress := progress m;
     activeDownloads := activeDownloads m; archive := archive m |}.

(** [waitAndWrite], resuming at [resume].  [pick] names the promise of
    [Object.values(activeDownloads)] that settles first. *)
Definition waitAndWrite (pick : nat) (resume : control) (m : machine) : machine :=
  let promises := (map_to_list (activeDownloads m)).*2 in
  match promises !! (pick mod length promises)%nat with
  | None => halt Pending m
  | Some (Thrown e) => halt (Rejected e) m
  | Some (Returned segment) =>
      {| pc := resume;
         downloads := downloads m;
         actives := actives m - 1;
         bytesDownloaded := bytesDownloaded m + count segment;
         progress :=
           setReceivedBytes (progress m) (bytesDownloaded m + count segment);
         activeDownloads := delete (offset segment) (activeDownloads m);
         archive :=
           archive m ++
           [ {| w_buffer := buffer segment; w_length := count segment;
                w_position := offset segment |} ] |}
  end.

(** One move of the two loops. *)
Definition step (net : network) (limit : Z) (pick : nat) (m : machine) : machine :=
  match pc m with
  | AtDispatch =>
      match pop (downloads m) with
      | None => halt AtDrain m
      | Some (nextDownload, rest) =>
          {| pc := if actives m + 1 >=? limit then AtLimitWait else AtDispatch;
             downloads := rest;
             actives := actives m + 1;
             bytesDownloaded := bytesDownloaded m;
             progress := progress m;
             activeDownloads :=
               <[ q_offset nextDownload := promiseGetter net nextDownload ]>
                 (activeDownloads m);
             archive := archive m |}
      end
  | AtLimitWait => waitAndWrite pick AtDispatch m
  | AtDrain =>
      if actives m >? 0 then waitAndWrite pick AtDrain m else halt Finished m
  | Finished | Rejected _ | Pending => m
  end.

Definition steps (net : network) (limit : Z) (schedule : list nat) (m : machine)
  : machine :=
  fold_left (fun m pick => step net limit pick m) schedule m.

(** The state after [downloads.reverse()] and the declarations that follow
    it. *)
Definition start (len : Z) : machine :=
  {| pc := AtDispatch;
     downloads := rev (blocks len);
     actives := 0;
     bytesDownloaded := 0;
     progress := newDownloadProgress len;
     activeDownloads := ∅;
     archive := [] |}.

(** A throw before the queue exists. *)
Definition failed (e : error) : machine :=
  {| pc := Rejected e; downloads := []; actives := 0; bytesDownloaded := 0;
     progress := newDownloadProgress 0; activeDownloads := ∅; archive := [] |}.

(** *** [parseInt] (ECMAScript, radix absent), on the header's bytes *)

Definition code (c : ascii) : Z := Z.of_N (N_of_ascii c).

(** TAB, LF, VT, FF, CR and SP: the white space and line terminators that
    fit one byte. *)
Definition isWhiteSpace (c : ascii) : bool :=
  let n := code c in ((9 <=? n) && (n <=? 13)) || (n =? 32).

Fixpoint trimStart (s : string) : string :=
  match s with
  | String c r => if isWhiteSpace c then trimStart r else s
  | EmptyString => s
  end.

Definition digitValue (c : ascii) : option Z :=
  let n := code c in
  if (48 <=? n) && (n <=? 57) then Some (n - 48)
  else if (97 <=? n) && (n <=? 122) then Some (n - 87)
  else if (65 <=? n) && (n <=? 90) then Some (n - 55)
  else None.

(** The value of the longest prefix of radix-[R] digits; [acc] is [None]
    until a digit has been read. *)
Fixpoint parseDigits (R : Z) (s : string) (acc : option Z) : option Z :=
  match s with
  | String c r =>
      match digitValue c with
      | Some d =>
          if d <? R
          then parseDigits R r (Some (match acc with Some a => a * R + d | None => d end))
          else acc
      | None => acc
      end
  | EmptyString => acc
  end.

(** [parseInt(s)]; [None] is NaN.  The value is the exact integer: the
    rounding of numerals beyond 2^53 is outside the model. *)
Definition parseInt (s : string) : option Z :=
  let S := trimStart s in
  let (sign, S) :=
    match S with
    | String "-" r => (-1, r)
    | String "+" r => (1, r)
    | _ => (1, S)
    end in
  let (R, S) :=
    match S with
    | String "0" (String "x" r) => (16, r)
    | String "0" (String "X" r) => (16, r)
    | _ => (10, S)
    end in
  match parseDigits R S None with
  | Some n => Some (sign * n)
  | None => None
  end.

(** [downloadCacheHttpClientConcurrent].  [probe] is what the HEAD request
    (already retried by [retryHttpClientResponse]) gives: the response's
    [content-length] header, or the failure it ends with. *)
Definition downloadCacheHttpClientConcurrent
  (probe : outcome (option string)) (net : network) (options : DownloadOptions)
  (schedule : list nat) : machine :=
  match probe with
  | Thrown e => failed e
  | Returned None => failed (Error "Content-Length not found on blob response")
  | Returned (Some lengthHeader) =>
      match parseInt lengthHeader with
      | None => failed (Error "Could not interpret Content-Length: NaN")
      | Some length => steps net (concurrencyLimit options) schedule (start length)
      end
  end.

(** ** The object-storage cache client *)

(** What the code passes to [console.log] after a label. *)
Inductive logged : Type :=
| LogString (s : string)
| LogNumber (n : Z)
| LogError (e : error).

(** The observable actions of the cache client, in the order they happen:
    console and [core] output, and the requests put to the storage SDK. *)
Inductive event : Type :=
| ConsoleWarn (message : string)
| ConsoleLog (label : string) (value : logged)
| CoreDebug (message : string)
| CoreInfo (message : string)
| HeadObject (bucket : option string) (key : string)
| ListObjectsType2 (bucket : option string) (prefix : string) (maxKeys : Z)
| PutObjectFromFile (bucket : option string) (key : string) (filePath : string).

(** An entry of [data.Contents]; [LastModified] is the number
    [new Date(LastModified).getTime()] evaluates to, for the well-formed
    dates the backend gives (milliseconds since the epoch). *)
Record ListedObject : Type := {
  Key : string;
  LastModified : Z
}.

(** The replies of the storage backend to the three requests the code
    makes. *)
Record TosClient : Type := {
  headObject : option string -> string -> outcome unit;
  listObjectsType2 : option string -> string -> Z -> outcome (list ListedObject);
  putObjectFromFile : option string -> string -> string -> outcome unit
}.

(** Everything the cache client reads from outside the file. *)
Record World : Type := {
  bucket : option string;              (* process.env["BUCKET_NAME"] *)
  repo : option string;                (* process.env["GITHUB_REPOSITORY"] *)
  platform : string;                   (* process.platform *)
  sha256hex : string -> string;        (* createHash("sha256").update(s).digest("hex") *)
  createObjectStorageClient : TosClient; (* the client [new TosClient] gives *)
  getArchiveFileSizeInBytes : string -> outcome Z   (* utils, not in this file *)
}.

(** [ArtifactCacheEntry]: every field is optional. *)
Record ArtifactCacheEntry : Type := {
  cacheKey : option string;
  cacheVersion : option string;
  objectKey : option string
}.

(** [InternalCacheOptions], the fields read here. *)
Record InternalCacheOptions : Type := {
  compressionMethod : option string;
  enableCrossOsArchive : option bool
}.

(** Computations that append to the trace of events and may throw. *)
Definition M (A : Type) : Type := list event -> outcome A * list event.

Definition ret {A : Type} (a : A) : M A := fun t => (Returned a, t).

Definition bind {A B : Type} (c : M A) (k : A -> M B) : M B :=
  fun t =>
    match c t with
    | (Returned a, t') => k a t'
    | (Thrown e, t') => (Thrown e, t')
    end.

Definition emit (ev : event) : M unit := fun t => (Returned tt, t ++ [ev]).

(** The settlement of an awaited call. *)
Definition await {A : Type} (o : outcome A) : M A := fun t => (o, t).

(** [try { c } catch (error) { handler error }]. *)
Definition tryCatch {A : Type} (c : M A) (handler : error -> M A) : M A :=
  fun t =>
    match c t with
    | (Returned a, t') => (Returned a, t')
    | (Thrown e, t') => handler e t'
    end.

Notation "'let*' x := c 'in' k" := (bind c (fun x => k))
  (at level 10, x name, c at level 100, k at level 200).
Notation "c ;; k" := (bind c (fun _ => k))
  (at level 100, k at level 200, right associativity).

(** A template literal's rendering of a possibly undefined string. *)
Definition render (s : option string) : string :=
  match s with
  | Some s => s
  | None => "undefined"
  end.

(** [`caches/${repo}/${key}`]. *)
Definition location (w : World) (key : option string) : string :=
  "caches/" +:+ render (repo w) +:+ "/" +:+ render key.

Definition versionSalt : string := "1.0".

(** The [components] array of [getCacheVersion] when it is joined. *)
Definition versionComponents (w : World) (paths : list string)
  (compressionMethod : option string) (enableCrossOsArchive : option bool)
  : list string :=
  let enableCrossOsArchive :=
    match enableCrossOsArchive with Some b => b | None => false end in
  let components := paths in
  let components :=
    match compressionMethod with
    | Some (String c r) => components ++ [String c r]
    | Some EmptyString | None => components
    end in
  let components :=
    if String.eqb (platform w) "win32" && negb enableCrossOsArchive
    then components ++ ["windows-only"]
    else components in
  components ++ [versionSalt].

(** [Array.prototype.join]. *)
Definition join (sep : string) (components : list string) : string :=
  String.concat sep components.

Definition getCacheVersion (w : World) (paths : list string)
  (compressionMethod : option string) (enableCrossOsArchive : option bool)
  : string :=
  sha256hex w
    (join "|" (versionComponents w paths compressionMethod enableCrossOsArchive)).

(** [error instanceof TosServerError && error.statusCode === 404]. *)
Definition isNotFound (error : error) : bool :=
  match error with
  | TosServerError _ statusCode _ _ _ => statusCode =? 404
  | _ => false
  end.

Definition getPrimaryKeyCacheEntry (w : World) (client : TosClient)
  (version : string) (primaryKey : option string) : M (option ArtifactCacheEntry) :=
  let objectKey := location w primaryKey in
  tryCatch
    (emit (HeadObject (bucket w) objectKey) ;;
     await (headObject client (bucket w) objectKey) ;;
     ret (Some {| cacheKey := primaryKey;
                  cacheVersion := Some version;
                  objectKey := Some objectKey |}))
    (fun error =>
       (if isNotFound error
        then emit (ConsoleWarn
                     ("Unable to find cache with primary key: " +:+ objectKey +:+ "."))
        else ret tt) ;;
       ret None).

Definition handleError (error : error) : M unit :=
  match error with
  | TosClientError message stack =>
      emit (ConsoleLog "Client Err Msg:" (LogString message)) ;;
      emit (ConsoleLog "Client Err Stack:" (LogString stack))
  | TosServerError requestId statusCode headers code message =>
      emit (ConsoleLog "Request ID:" (LogString requestId)) ;;
      emit (ConsoleLog "Response Status Code:" (LogNumber statusCode)) ;;
      emit (ConsoleLog "Response Header:" (LogString headers)) ;;
      emit (ConsoleLog "Response Err Code:" (LogString code)) ;;
      emit (ConsoleLog "Response Err Msg:" (LogString message))
  | Error _ =>
      emit (ConsoleLog "unexpected exception, message: " (LogError error))
  end.

(** The inner [for (let i = 1; i < data.Contents.length; i++)] loop, entered
    at [i] with the entries from [i] on still to visit. *)
Fixpoint latestLoop (rest : list ListedObject) (i index : nat)
  (latestModifiedTime : Z) : nat :=
  match rest with
  | [] => index
  | o :: rest' =>
      let modifiedTime := LastModified o in
      if modifiedTime >? latestModifiedTime
      then latestLoop rest' (S i) i modifiedTime
      else latestLoop rest' (S i) index latestModifiedTime
  end.

(** The index chosen among a non-empty [data.Contents]. *)
Definition latestIndex (first : ListedObject) (others : list ListedObject) : nat :=
  latestLoop others 1 0 (LastModified first).

Fixpoint getRestoreKeysCacheEntry (w : World) (client : TosClient)
  (version : string) (restoreKeys : list string) : M (option ArtifactCacheEntry) :=
  match restoreKeys with
  | [] => ret None
  | key :: later =>
      let prefix := location w (Some key) in
      let* attempt :=
        tryCatch
          (emit (ListObjectsType2 (bucket w) prefix 100) ;;
           let* Contents := await (listObjectsType2 client (bucket w) prefix 100) in
           match Contents with
           | [] =>
               emit (ConsoleWarn
                       ("Unable to find cache with restore key " +:+ prefix +:+ ".")) ;;
               ret None
           | first :: others =>
               match Contents !! latestIndex first others with
               | Some matched =>
                   ret (Some {| cacheKey := Some (Key matched);
                                cacheVersion := Some version;
                                objectKey := Some (Key matched) |})
               | None =>
                   await (Thrown (Error "Cannot read properties of undefined"))
               end
           end)
          (fun error =>
             emit (ConsoleWarn
                     ("an error occurred when trying to find cache with restore key "
                      +:+ prefix)) ;;
             handleError error ;;
             ret None) in
      match attempt with
      | Some entry => ret (Some entry)
      | None => getRestoreKeysCacheEntry w client version later
      end
  end.

Definition getCacheEntry (w : World) (keys paths : list string)
  (options : option InternalCacheOptions) : M (option ArtifactCacheEntry) :=
  let client := createObjectStorageClient w in
  let version :=
    getCacheVersion w paths
      (match options with Some o => compressionMethod o | None => None end)
      (match options with Some o => enableCrossOsArchive o | None => None end) in
  let* entry := getPrimaryKeyCacheEntry w client version (head keys) in
  match entry with
  | Some entry => ret (Some entry)
  | None =>
      let* entry := getRestoreKeysCacheEntry w client version (tail keys) in
      match entry with
      | Some entry => ret (Some entry)
      | None =>
          emit (ConsoleWarn
                  ("Failed to find cache that matches keys: " +:+ join "," keys)) ;;
          ret (Some {| cacheKey := None;
                       cacheVersion := Some version;
                       objectKey := None |})
      end
  end.

Definition uploadFile (w : World) (client : TosClient) (cacheId archivePath : string)
  : M unit :=
  tryCatch
    (let objectName := location w (Some cacheId) in
     emit (PutObjectFromFile (bucket w) objectName archivePath) ;;
     await (putObjectFromFile client (bucket w) objectName archivePath))
    (fun error => handleError error).

(** Decimal rendering of a number in a template literal. *)
Definition showZ (n : Z) : string := NilZero.string_of_int (Z.to_int n).

(** [Math.round(cacheSize / (1024 * 1024))]: the nearest integer, halves
    upwards. *)
Definition roundMiB (cacheSize : Z) : Z :=
  (2 * cacheSize + 1024 * 1024) / (2 * (1024 * 1024)).

Definition saveCache (w : World) (cacheId archivePath : string) : M unit :=
  let client := createObjectStorageClient w in
  emit (CoreDebug "Upload cache") ;;
  uploadFile w client cacheId archivePath ;;
  emit (CoreDebug "Commiting cache") ;;
  let* cacheSize := await (getArchiveFileSizeInBytes w archivePath) in
  emit (CoreInfo ("Cache Size: ~" +:+ showZ (roundMiB cacheSize) +:+ " MB ("
                  +:+ showZ cacheSize +:+ " B)")) ;;
  emit (CoreInfo "Cache saved successfully").

(** ** The progress display *)

(** The two byte counts of a line of [display].  The percentage and the
    speed that the line also shows are floating-point values computed from
    these counts and from the clock; they are not part of the model. *)
Record ProgressLine : Type := {
  shownTransferred : Z;
  shownTotal : Z
}.

(** [this.displayedComplete = true]. *)
Definition markDisplayed (p : DownloadProgress) : DownloadProgress :=
  {| contentLength := contentLength p;
     segmentIndex := segmentIndex p;
     segmentSize := segmentSize p;
     segmentOffset := segmentOffset p;
     receivedBytes := receivedBytes p;
     displayedComplete := true |}.

(** [display]: the tracker after the call and the lines it passes to
    [core.info] (none or one). *)
Definition display (p : DownloadProgress) : DownloadProgress * list ProgressLine :=
  if displayedComplete p then (p, [])
  else
    let transferredBytes := segmentOffset p + receivedBytes p in
    let line :=
      {| shownTransferred := transferredBytes; shownTotal := contentLength p |} in
    (if isDone p then markDisplayed p else p, [line]).

(** The calls that reach a tracker.  The callback of [startDisplayTimer] and
    [stopDisplayTimer] print through [display] only, so a firing timer and a
    stop are [CallDisplay] for what is printed; the handler [onProgress]
    returns is [CallSetReceivedBytes]. *)
Inductive trackerCall : Type :=
| CallNextSegment (size : Z)
| CallSetReceivedBytes (received : Z)
| CallDisplay.

Definition call (state : DownloadProgress * list ProgressLine) (c : trackerCall)
  : DownloadProgress * list ProgressLine :=
  let (p, printed) := state in
  match c with
  | CallNextSegment size => (nextSegment p size, printed)
  | CallSetReceivedBytes received => (setReceivedBytes p received, printed)
  | CallDisplay => let (p', lines) := display p in (p', printed ++ lines)
  end.

(** A tracker made by [new DownloadProgress(contentLength)] after a sequence
    of calls, with everything printed so far. *)
Definition tracked (contentLength : Z) (calls : list trackerCall)
  : DownloadProgress * list ProgressLine :=
  fold_left call calls (newDownloadProgress contentLength, []).

(** The callback that [startDisplayTimer] arms: it displays, and arms the
    timer again unless the tracker is done.  The result says whether it
    did. *)
Definition displayCallback (p : DownloadProgress)
  : DownloadProgress * list ProgressLine * bool :=
  let (p', lines) := display p in
  (p', lines, negb (isDone p')).

(** An armed timer over its next [n] firings, no other call reaching the
    tracker in between: the lines printed, and whether the timer is still
    armed afterwards. *)
Fixpoint displayTimer (n : nat) (p : DownloadProgress) : list ProgressLine * bool :=
  match n with
  | O => ([], true)
  | S n =>
      let '(p', lines, armed) := displayCallback p in
      if armed
      then let (more, armed) := displayTimer n p' in (lines ++ more, armed)
      else (lines, false)
  end.

(** ** The single-stream download *)

(** How [pipeResponseToStream] ends: the body is written out, the pipeline
    fails, or the socket timer fires first, which destroys the message (the
    pipeline then fails with [e]) and writes a debug line. *)
Inductive piping : Type :=
| Piped
| PipeFailed (e : error)
| SocketTimedOut (e : error).

(** What [downloadCacheHttpClient] meets: the response to the GET (retried by
    [retryHttpClientResponse]) as its [content-length] header, or the failure
    the GET ends with; the piping of the body; and what
    [utils.getArchiveFileSizeInBytes(archivePath)] gives afterwards. *)
Record HttpTransfer : Type := {
  downloadResponse : outcome (option string);
  pipeResponseToStream : piping;
  archiveFileSize : outcome Z
}.

(** A number in a template literal, [None] being NaN. *)
Definition showNumber (n : option Z) : string :=
  match n with
  | Some n => showZ n
  | None => "NaN"
  end.

(** [actualLength !== expectedLength] on numbers: NaN differs from
    everything. *)
Definition differs (actualLength : Z) (expectedLength : option Z) : bool :=
  match expectedLength with
  | Some n => negb (actualLength =? n)
  | None => true
  end.

(** [SocketTimeout] comes from [./constants]. *)
Definition downloadCacheHttpClient (SocketTimeout : Z) (h : HttpTransfer) : M unit :=
  let* contentLengthHeader := await (downloadResponse h) in
  match pipeResponseToStream h with
  | Piped => ret tt
  | PipeFailed e => await (Thrown e)
  | SocketTimedOut e =>
      emit (CoreDebug ("Aborting download, socket timed out after "
                       +:+ showZ SocketTimeout +:+ " ms")) ;;
      await (Thrown e)
  end ;;
  match contentLengthHeader with
  | Some (String c r) =>
      let expectedLength := parseInt (String c r) in
      let* actualLength := await (archiveFileSize h) in
      if differs actualLength expectedLength
      then await (Thrown (Error ("Incomplete download. Expected file size: "
                                 +:+ showNumber expectedLength
                                 +:+ ", actual file size: "
                                 +:+ showZ actualLength)))
      else ret tt
  | Some EmptyString | None =>
      emit (CoreDebug "Unable to validate download, no Content-Length header")
  end.

(** ** The storage-SDK download *)

(** The blob client as [downloadCacheStorageSDK] uses it:
    [properties.contentLength] of [getProperties] (or its failure), and, for
    a [downloadToBuffer(segmentStart, segmentSize, ...)] call, the last
    [loadedBytes] it reports through [onProgress] (if it reports at all)
    with how the call fares against the segment timer. *)
Record BlockBlobClient : Type := {
  getProperties : outcome (option Z);
  downloadToBuffer : Z -> Z -> option Z * attempt
}.

(** The tracker and the effects of the segment loop: the ranges requested,
    the buffers passed to [fs.writeFileSync(fd, result)] in order (each is
    appended at the descriptor's position), and whether [controller.abort()]
    was called. *)
Record SdkTransfer : Type := {
  downloadProgress : DownloadProgress;
  requested : list (Z * Z);
  fileData : list (list Byte.byte);
  aborted : bool
}.

(** The [while (!downloadProgress.isDone())] loop.  The loop has no bound of
    its own: [fuel] bounds the iterations, and [None] says that it was used
    up before the loop ended. *)
Fixpoint segmentLoop (fuel : nat) (client : BlockBlobClient)
  (maxSegmentSize contentLength : Z) (st : SdkTransfer)
  : option (outcome unit * SdkTransfer) :=
  if isDone (downloadProgress st) then Some (Returned tt, st)
  else
    match fuel with
    | O => None
    | S fuel =>
        let segmentStart :=
          segmentOffset (downloadProgress st) + segmentSize (downloadProgress st) in
        let segmentSize := Z.min maxSegmentSize (contentLength - segmentStart) in
        let p := nextSegment (downloadProgress st) segmentSize in
        let (loadedBytes, result) := downloadToBuffer client segmentStart segmentSize in
        let p :=
          match loadedBytes with
          | Some n => setReceivedBytes p n
          | None => p
          end in
        let requested := requested st ++ [(segmentStart, segmentSize)] in
        match result with
        | TimerFirst =>
            Some (Thrown (Error "Aborting cache download as the download time exceeded the timeout."),
                  {| downloadProgress := p; requested := requested;
                     fileData := fileData st; aborted := true |})
        | Settles (Thrown e) =>
            Some (Thrown e,
                  {| downloadProgress := p; requested := requested;
                     fileData := fileData st; aborted := aborted st |})
        | Settles (Returned result) =>
            segmentLoop fuel client maxSegmentSize contentLength
              {| downloadProgress := p; requested := requested;
                 fileData := fileData st ++ [result]; aborted := aborted st |}
        end
    end.

(** The three ways [downloadCacheStorageSDK] can go. *)
Inductive sdkRun : Type :=
| PropertiesFailed (e : error)
| ViaHttpClient (run : outcome unit * list event)
| ViaSegments (result : outcome unit) (st : SdkTransfer).

(** [downloadCacheStorageSDK]; [MAX_LENGTH] is [buffer.constants.MAX_LENGTH].
    The lines of the display timer depend on the clock and are left out. *)
Definition downloadCacheStorageSDK (MAX_LENGTH SocketTimeout : Z)
  (client : BlockBlobClient) (h : HttpTransfer) (fuel : nat) : option sdkRun :=
  match getProperties client with
  | Thrown e => Some (PropertiesFailed e)
  | Returned properties =>
      let contentLength := match properties with Some n => n | None => -1 end in
      if contentLength <? 0
      then
        Some (ViaHttpClient
                ((emit (CoreDebug "Unable to determine content length, downloading file with http-client...") ;;
                  downloadCacheHttpClient SocketTimeout h) []))
      else
        let maxSegmentSize := Z.min 134217728 MAX_LENGTH in
        match
          segmentLoop fuel client maxSegmentSize contentLength
            {| downloadProgress := newDownloadProgress contentLength;
               requested := []; fileData := []; aborted := false |}
        with
        | Some (result, st) => Some (ViaSegments result st)
        | None => None
        end
  end.

(** ** Running a command (utils) *)

(** The [commandFailed] object that [getCmdOutput] attaches to an error. *)
Record CommandFailed : Type := {
  command : string;
  stderr : string
}.

(** A value thrown by [exec.exec], as far as [reportError] reads it. *)
Record ExecError : Type := {
  stack : option string;
  commandFailed : option CommandFailed
}.

(** A chunk of output handed to a listener. *)
Inductive chunk : Type :=
| Stdout (data : string)
| Stderr (data : string).

(** One run of [exec.exec]: the chunks in the order they arrive, and the
    error it rejects with, if it does.  A run is given by the command, its
    arguments and the options. *)
Record Execution : Type := {
  chunks : list chunk;
  rejection : option ExecError
}.

(** [exec.ExecOptions], as far as it matters here: whether the caller passes
    [listeners] of its own. *)
Record ExecOptions : Type := {
  listeners : bool
}.

(** The two listeners, on the pair of the variables [stdout] and [stderr]. *)
Definition listen (vars : string * string) (c : chunk) : string * string :=
  match c with
  | Stdout data => (fst vars +:+ data, snd vars)
  | Stderr data => (fst vars, snd vars +:+ data)
  end.

(** [getCmdOutput]: the string returned ([inl]) or the error rethrown
    ([inr]).  The spread [...options] comes after [listeners] in the object
    literal, so listeners of the caller replace the two above. *)
Definition getCmdOutput (exec : string -> list string -> ExecOptions -> Execution)
  (cmd : string) (args : list string) (options : ExecOptions)
  : string + ExecError :=
  let run := exec cmd args options in
  let (stdout, stderr) :=
    if listeners options then ("", "")
    else fold_left listen (chunks run) ("", "") in
  match rejection run with
  | None => inl stdout
  | Some e =>
      inr {| stack := stack e;
             commandFailed :=
               Some {| command := cmd +:+ " " +:+ join " " args;
                       stderr := stderr |} |}
  end.

(** [reportError]: the lines passed to [core.error]. *)
Definition reportError (e : ExecError) : list string :=
  match commandFailed e with
  | Some info => [ "Command failed: " +:+ command info; stderr info ]
  | None => [ render (stack e) ]
  end.

(** * Vocabulary of the properties *)

(** ** For the downloader *)

(** What an attempt fails with, if it fails: its own failure, or the timeout
    error raised when the timer wins the race. *)
Definition attemptFailure (a : attempt) : option error :=
  match a with
  | Settles (Returned _) => None
  | Settles (Thrown e) => Some e
  | TimerFirst => Some (Error "downloadSegmentRetry failed due to timeout")
  end.

(** The blocks the loop pushes from [off] on. *)
Definition blocksFrom (len off : Z) : list QueuedDownload := partitionLoop len off [].

(** The byte range of a block, and the byte range of a write. *)
Definition range (d : QueuedDownload) : Z * Z := (q_offset d, q_count d).

Definition written (w : FileWrite) : Z * Z := (w_position w, w_length w).



Definition sumCounts (l : list QueuedDownload) : Z :=
  fold_right (fun d acc => q_count d + acc) 0 l.

(** The control points at which the function has ended. *)
Definition terminal (c : control) : Prop :=
  match c with
  | Finished | Rejected _ | Pending => True
  | AtDispatch | AtLimitWait | AtDrain => False
  end.

(** An upper bound on the moves left. *)
Definition movesLeft (m : machine) : nat :=
  match pc m with
  | AtDispatch | AtLimitWait => 2 * length (downloads m) + Z.to_nat (actives m) + 2
  | AtDrain => 2 * length (downloads m) + Z.to_nat (actives m) + 1
  | Finished | Rejected _ | Pending => 0
  end.

(** The entry of [activeDownloads] a launched block makes. *)
Definition launchedAs (net : network) (d : QueuedDownload)
  : Z * outcome DownloadSegment :=
  (q_offset d, promiseGetter net d).

(** Write [w] is the write of block [d]: at its offset, of its length, with
    the bytes its fetch returned. *)
Definition wrote (net : network) (w : FileWrite) (d : QueuedDownload) : Prop :=
  w_position w = q_offset d /\ w_length w = q_count d /\
  promiseGetter net d =
  Returned {| offset := q_offset d; count := q_count d; buffer := w_buffer w |}.

(** What the control point says about the number in flight and the queue. *)
Definition placed (net : network) (limit len : Z) (c : control) (inflight : nat)
  (pending : list QueuedDownload) : Prop :=
  match c with
  | AtDispatch => Z.of_nat inflight < Z.max 1 limit
  | AtLimitWait => 1 <= Z.of_nat inflight
  | AtDrain => Z.of_nat inflight < Z.max 1 limit /\ pending = []
  | Finished => inflight = 0%nat /\ pending = []
  | Rejected e => exists d, d ∈ blocks len /\ promiseGetter net d = Thrown e
  | Pending => False
  end.

(** The invariant of the two loops: the blocks split into those written,
    those in flight and those still queued. *)
Definition Inv (net : network) (limit len : Z) (m : machine) : Prop :=
  exists writtenQ actQ pending : list QueuedDownload,
    downloads m = rev pending /\
    map_to_list (activeDownloads m) ≡ₚ map (launchedAs net) actQ /\
    Forall2 (wrote net) (archive m) writtenQ /\
    writtenQ ++ actQ ++ pending ≡ₚ blocks len /\
    (limit <= 1 -> writtenQ ++ actQ ++ pending = blocks len) /\
    actives m = Z.of_nat (length actQ) /\
    Z.of_nat (length actQ) <= Z.max 1 limit /\
    bytesDownloaded m = sumCounts writtenQ /\
    receivedBytes (progress m) = bytesDownloaded m /\
    contentLength (progress m) = len /\
    segmentOffset (progress m) = 0 /\
    placed net limit len (pc m) (length actQ) pending.


(** ** For the version fingerprint *)

(** The characters (bytes) of a string. *)
Definition chars (s : string) : list ascii := list_ascii_of_string s.

(** No ["|"] in the string, as a proposition and as a test. *)
Definition sepFree (s : string) : Prop := "|"%char ∉ chars s.

Definition sepFreeb (s : string) : bool :=
  forallb (fun c => negb (Ascii.eqb c "|")) (chars s).

(** The components the code appends after the path selectors. *)
Definition versionTail (w : World) (compressionMethod : option string)
  (enableCrossOsArchive : option bool) : list string :=
  versionComponents w [] compressionMethod enableCrossOsArchive.

(** ** For resolution *)

(** What [handleError] logs. *)
Definition handleErrorEvents (e : error) : list event :=
  match e with
  | TosClientError message stack =>
      [ ConsoleLog "Client Err Msg:" (LogString message);
        ConsoleLog "Client Err Stack:" (LogString stack) ]
  | TosServerError requestId statusCode headers code message =>
      [ ConsoleLog "Request ID:" (LogString requestId);
        ConsoleLog "Response Status Code:" (LogNumber statusCode);
        ConsoleLog "Response Header:" (LogString headers);
        ConsoleLog "Response Err Code:" (LogString code);
        ConsoleLog "Response Err Msg:" (LogString message) ]
  | Error _ => [ ConsoleLog "unexpected exception, message: " (LogError e) ]
  end.

(** The [i]-th entry is the latest of [contents], and the first with that
    timestamp. *)
Definition latestFirstSeen (contents : list ListedObject) (i : nat)
  (best : ListedObject) : Prop :=
  contents !! i = Some best /\
  (forall o, o ∈ contents -> LastModified o <= LastModified best) /\
  (forall (j : nat) o, (j < i)%nat -> contents !! j = Some o ->
     LastModified o < LastModified best).

(** The listing request the code makes for restore key [key], and the reply
    to it. *)
Definition listRequest (w : World) (key : string) : event :=
  ListObjectsType2 (bucket w) (location w (Some key)) 100.

Definition listing (w : World) (client : TosClient) (key : string)
  : outcome (list ListedObject) :=
  listObjectsType2 client (bucket w) (location w (Some key)) 100.

(** A restore key matches when its listing returns at least one object; it
    does not when the listing is empty or fails. *)
Definition matches (reply : outcome (list ListedObject)) : Prop :=
  exists first others, reply = Returned (first :: others).

Definition noMatch (reply : outcome (list ListedObject)) : Prop :=
  reply = Returned [] \/ exists e, reply = Thrown e.

(** What the code logs for a restore key that gives no entry. *)
Definition skipEvents (w : World) (key : string)
  (reply : outcome (list ListedObject)) : list event :=
  match reply with
  | Thrown e =>
      ConsoleWarn ("an error occurred when trying to find cache with restore key "
                   +:+ location w (Some key)) :: handleErrorEvents e
  | Returned _ =>
      [ ConsoleWarn ("Unable to find cache with restore key "
                     +:+ location w (Some key) +:+ ".") ]
  end.

(** The events of passing over restore keys that give no entry. *)
Definition skippedEvents (w : World) (client : TosClient) (skipped : list string)
  : list event :=
  concat (map (fun k => listRequest w k :: skipEvents w k (listing w client k))
              skipped).

(** The entry of a restore-key hit on the listed object [matched]. *)
Definition hit (version : string) (matched : ListedObject) : ArtifactCacheEntry :=
  {| cacheKey := Some (Key matched);
     cacheVersion := Some version;
     objectKey := Some (Key matched) |}.

(** The listing requests among the events of a trace. *)
Definition isListRequest (ev : event) : option (option string * string * Z) :=
  match ev with
  | ListObjectsType2 b p n => Some (b, p, n)
  | _ => None
  end.

Definition listRequests (t : list event) : list (option string * string * Z) :=
  omap isListRequest t.

(** The version [getCacheEntry] computes, the miss it returns when nothing
    matches, the reply to its probe of the primary key and what that probe
    leaves in the trace. *)
Definition versionOf (w : World) (paths : list string)
  (options : option InternalCacheOptions) : string :=
  getCacheVersion w paths
    (match options with Some o => compressionMethod o | None => None end)
    (match options with Some o => enableCrossOsArchive o | None => None end).

Definition miss (version : string) : ArtifactCacheEntry :=
  {| cacheKey := None; cacheVersion := Some version; objectKey := None |}.

Definition probe (w : World) (primaryKey : option string) : outcome unit :=
  headObject (createObjectStorageClient w) (bucket w) (location w primaryKey).

Definition probeEvents (w : World) (primaryKey : option string) : list event :=
  HeadObject (bucket w) (location w primaryKey) ::
  match probe w primaryKey with
  | Returned _ => []
  | Thrown e =>
      if isNotFound e
      then [ ConsoleWarn ("Unable to find cache with primary key: "
                          +:+ location w primaryKey +:+ ".") ]
      else []
  end.

(** ** For saving *)

(** The reply to the put of [uploadFile], and what [uploadFile] leaves in the
    trace. *)
Definition putReply (w : World) (cacheId archivePath : string) : outcome unit :=
  putObjectFromFile (createObjectStorageClient w) (bucket w)
    (location w (Some cacheId)) archivePath.

Definition uploadEvents (w : World) (cacheId archivePath : string) : list event :=
  PutObjectFromFile (bucket w) (location w (Some cacheId)) archivePath ::
  match putReply w cacheId archivePath with
  | Returned _ => []
  | Thrown e => handleErrorEvents e
  end.

(** ** For the progress display *)

(** A line that shows the whole content as transferred. *)
Definition complete (line : ProgressLine) : bool :=
  shownTransferred line =? shownTotal line.

(** What holds of a tracker for [L] bytes and of what it has printed: no
    line is complete while [displayedComplete] is unset, and once it is set
    the last line printed is the only complete one. *)
Definition displayInv (L : Z) (state : DownloadProgress * list ProgressLine) : Prop :=
  let (p, printed) := state in
  contentLength p = L /\
  (displayedComplete p = false -> Forall (fun l => complete l = false) printed) /\
  (displayedComplete p = true ->
   exists init line, printed = init ++ [line] /\ complete line = true /\
     Forall (fun l => complete l = false) init).

(** ** For the single-stream download *)

(** The transfer went through and passes the size check of
    [downloadCacheHttpClient]: the GET and the piping succeeded, and the
    response has no usable [content-length] header or [parseInt] of it is
    the size of the file. *)
Definition validated (h : HttpTransfer) : Prop :=
  exists header,
    downloadResponse h = Returned header /\
    pipeResponseToStream h = Piped /\
    (header = None \/ header = Some "" \/
     exists s n, header = Some s /\ archiveFileSize h = Returned n /\
                 parseInt s = Some n).

(** ** For the storage-SDK download *)

(** [Math.min(134217728, buffer.constants.MAX_LENGTH)]. *)
Definition segmentCap (MAX_LENGTH : Z) : Z := Z.min 134217728 MAX_LENGTH.

(** The number of segments of at most [B] bytes that [L] bytes take, the
    [i]-th of them as a start and a size, and all of them in order. *)
Definition segmentsNeeded (B L : Z) : nat := Z.to_nat ((L + B - 1) / B).

Definition segment (B L : Z) (i : nat) : Z * Z :=
  (Z.of_nat i * B, Z.min B (L - Z.of_nat i * B)).

Definition segmentPlan (B L : Z) : list (Z * Z) :=
  map (segment B L) (seq 0 (segmentsNeeded B L)).

(** What a segment that does not give a buffer makes the loop throw, and
    whether the loop calls [controller.abort()] first. *)
Definition segmentFailure (a : attempt) : option (error * bool) :=
  match a with
  | TimerFirst =>
      Some (Error "Aborting cache download as the download time exceeded the timeout.",
            true)
  | Settles (Thrown e) => Some (e, false)
  | Settles (Returned _) => None
  end.

(** The state in which the segment loop is entered. *)
Definition sdkStart (contentLength : Z) : SdkTransfer :=
  {| downloadProgress := newDownloadProgress contentLength;
     requested := []; fileData := []; aborted := false |}.

(** The loop stands before segment [j] of a download of [L] bytes that is
    not done. *)
Definition beforeSegment (B L : Z) (j : nat) (st : SdkTransfer) : Prop :=
  contentLength (downloadProgress st) = L /\
  segmentOffset (downloadProgress st) + segmentSize (downloadProgress st) =
    Z.of_nat j * B /\
  getTransferredBytes (downloadProgress st) < L.

(** ** For the command runner *)

(** The data of a chunk of standard output, and of standard error. *)
Definition onStdout (c : chunk) : option string :=
  match c with
  | Stdout data => Some data
  | Stderr _ => None
  end.

Definition onStderr (c : chunk) : option string :=
  match c with
  | Stderr data => Some data
  | Stdout _ => None
  end.

(** The chunks of one stream, one after the other. *)
Definition outputOf (stream : chunk -> option string) (cs : list chunk) : string :=
  fold_right append "" (omap stream cs).

(** ** Sample inputs *)

(** A network on which every first attempt succeeds with no bytes, one on
    which every attempt times out, and one on which the sixth attempt is the
    first to succeed. *)
Definition steadyNetwork : network := fun _ _ _ => Settles (Returned []).

Definition deadNetwork : network := fun _ _ _ => TimerFirst.

Definition flakyNetwork : network :=
  fun _ _ n => if (n <? 5)%nat then TimerFirst else Settles (Returned []).

Definition withConcurrency (n : Z) : DownloadOptions :=
  {| downloadConcurrency := Some n; timeoutInMs := None |}.

(** A Linux runner of repository owner/repo whose digest is the identity (so
    that a fingerprint shows the text that is hashed), around a given
    backend. *)
Definition plainWorld (client : TosClient) : World :=
  {| bucket := Some "bucket"; repo := Some "owner/repo"; platform := "linux";
     sha256hex := fun s => s; createObjectStorageClient := client;
     getArchiveFileSizeInBytes := fun _ => Returned 0 |}.

(** An empty bucket. *)
Definition silentClient : TosClient :=
  {| headObject := fun _ _ => Thrown (TosServerError "rid" 404 "" "NoSuchKey" "");
     listObjectsType2 := fun _ _ _ => Returned [];
     putObjectFromFile := fun _ _ _ => Returned tt |}.

(** A bucket in which every probed object exists. *)
Definition primaryPresent : TosClient :=
  {| headObject := fun _ _ => Returned tt;
     listObjectsType2 := fun _ _ _ => Returned [];
     putObjectFromFile := fun _ _ _ => Returned tt |}.

(** Nothing under "build-a", two objects under "build-b". *)
Definition twoBuilds : TosClient :=
  {| headObject := fun _ _ => Thrown (TosServerError "rid" 404 "" "NoSuchKey" "");
     listObjectsType2 := fun _ prefix _ =>
       if String.eqb prefix "caches/owner/repo/build-b"
       then Returned [ {| Key := "caches/owner/repo/build-b-1"; LastModified := 1000 |};
                       {| Key := "caches/owner/repo/build-b-2"; LastModified := 2000 |} ]
       else Returned [];
     putObjectFromFile := fun _ _ _ => Returned tt |}.

(** A bucket that answers a listing with the first [maxKeys] of its objects
    under the prefix. *)
Definition pagedClient (store : list ListedObject) : TosClient :=
  {| headObject := fun _ _ => Thrown (TosServerError "rid" 404 "" "NoSuchKey" "");
     listObjectsType2 := fun _ prefix maxKeys =>
       Returned (take (Z.to_nat maxKeys)
                   (List.filter (fun o => String.prefix prefix (Key o)) store));
     putObjectFromFile := fun _ _ _ => Returned tt |}.

(** A hundred objects of time 1 and then a newer one of time 9. *)
Definition crowdedStore : list ListedObject :=
  replicate 100 {| Key := "caches/owner/repo/k-old"; LastModified := 1 |} ++
  [ {| Key := "caches/owner/repo/k-new"; LastModified := 9 |} ].

(** The archive file is missing: the put fails, and so does the read of the
    archive's size. *)
Definition missingArchive : World :=
  {| bucket := Some "bucket"; repo := Some "owner/repo"; platform := "linux";
     sha256hex := fun s => s;
     createObjectStorageClient :=
       {| headObject := fun _ _ => Returned tt;
          listObjectsType2 := fun _ _ _ => Returned [];
          putObjectFromFile := fun _ _ _ =>
            Thrown (TosClientError "ENOENT: no such file or directory" "") |};
     getArchiveFileSizeInBytes := fun _ =>
       Thrown (Error "ENOENT: no such file or directory, stat") |}.

(** The backend rejects the put with a server error; the archive is in
    place. *)
Definition rejectingBackend : World :=
  {| bucket := Some "bucket"; repo := Some "owner/repo"; platform := "linux";
     sha256hex := fun s => s;
     createObjectStorageClient :=
       {| headObject := fun _ _ => Returned tt;
          listObjectsType2 := fun _ _ _ => Returned [];
          putObjectFromFile := fun _ _ _ =>
            Thrown (TosServerError "req-42" 500 "" "InternalError" "try later") |};
     getArchiveFileSizeInBytes := fun _ => Returned 1572864 |}.

(** A blob of [L] bytes (all zero) whose client reports each segment's
    size when the segment is complete; one whose client never reports
    progress; and one whose segment at [stalled] loses against the segment
    timer. *)
Definition zeros (start size : Z) : list Byte.byte :=
  repeat Byte.x00 (Z.to_nat size).

Definition reportingBlob (L : Z) : BlockBlobClient :=
  {| getProperties := Returned (Some L);
     downloadToBuffer := fun start size =>
       (Some size, Settles (Returned (zeros start size))) |}.

Definition silentBlob (L : Z) : BlockBlobClient :=
  {| getProperties := Returned (Some L);
     downloadToBuffer := fun start size =>
       (None, Settles (Returned (zeros start size))) |}.

Definition stallingBlob (L stalled : Z) : BlockBlobClient :=
  {| getProperties := Returned (Some L);
     downloadToBuffer := fun start size =>
       if start =? stalled then (Some 0, TimerFirst)
       else (Some size, Settles (Returned (zeros start size))) |}.

(** A blob whose properties carry no content length. *)
Definition unsizedBlob : BlockBlobClient :=
  {| getProperties := Returned None;
     downloadToBuffer := fun _ _ => (None, TimerFirst) |}.

(** A GET whose response has the given [content-length] header, piped into
    a file that ends up with [size] bytes. *)
Definition streamed (header : option string) (size : Z) : HttpTransfer :=
  {| downloadResponse := Returned header;
     pipeResponseToStream := Piped;
     archiveFileSize := Returned size |}.

(** A compiler run that prints a warning between two pieces of output and
    then fails, and a command that prints its version and succeeds. *)
Definition failingBuild : string -> list string -> ExecOptions -> Execution :=
  fun _ _ _ =>
    {| chunks := [ Stdout "Compiling"; Stderr "warning: unused"; Stdout " done";
                   Stderr "error: E0308" ];
       rejection := Some {| stack := Some "Error: exit code 101";
                            commandFailed := None |} |}.

Definition versionCommand : string -> list string -> ExecOptions -> Execution :=
  fun _ _ _ =>
    {| chunks := [ Stderr "info: "; Stdout "rustc 1.75.0"; Stdout " (stable)" ];
       rejection := None |}.

(** A Windows runner of the same repository, with the same digest. *)
Definition windowsWorld (client : TosClient) : World :=
  {| bucket := Some "bucket"; repo := Some "owner/repo"; platform := "win32";
     sha256hex := fun s => s; createObjectStorageClient := client;
     getArchiveFileSizeInBytes := fun _ => Returned 0 |}.

(** * Properties *)

(** ** The retry wrapper *)

Lemma tryAttempt_failure a offset count e :
  attemptFailure a = Some e -> tryAttempt a offset count = Thrown e.
Proof.
  destruct a as [[b|e']|]; simpl; intros H; inversion H; reflexivity.
Qed.

Lemma tryAttempt_success body offset count :
  tryAttempt (Settles (Returned body)) offset count =
  Returned {| offset := offset; count := count; buffer := body |}.
Proof. reflexivity. Qed.

Lemma tryAttempt_returned a off cnt s :
  tryAttempt a off cnt = Returned s ->
  a = Settles (Returned (buffer s)) /\ offset s = off /\ count s = cnt.
Proof.
  destruct a as [[b|e']|]; simpl; intros H; inversion H; subst; auto.
Qed.

Lemma retryLoop_step net off cnt failures :
  retryLoop net off cnt failures =
  match tryAttempt (net off cnt failures) off cnt with
  | Returned result => Returned result
  | Thrown err =>
      if le_lt_dec retries failures then Thrown err
      else retryLoop net off cnt (S failures)
  end.
Proof.
  rewrite retryLoop_equation_1.
  destruct (tryAttempt _ _ _) as [r|e]; [reflexivity|].
  change (retryLoop_unfold_clause_1 net off cnt failures (Thrown e))
    with (retryLoop_unfold_clause_1_clause_2 net off cnt failures
            (le_lt_dec retries failures) e).
  destruct (le_lt_dec retries failures); reflexivity.
Qed.

(** A fulfilled retry carries the offset and count it was asked for. *)
Lemma retryLoop_returned net off cnt failures s :
  retryLoop net off cnt failures = Returned s ->
  offset s = off /\ count s = cnt.
Proof.
  remember (retries - failures)%nat as fuel eqn:Hfuel.
  revert failures Hfuel.
  induction fuel as [|fuel IH]; intros failures Hfuel;
    rewrite retryLoop_step;
    destruct (tryAttempt _ _ _) as [r|err] eqn:Htry.
  - intros H; inversion H; subst. apply tryAttempt_returned in Htry. tauto.
  - destruct (le_lt_dec retries failures); [discriminate | lia].
  - intros H; inversion H; subst. apply tryAttempt_returned in Htry. tauto.
  - destruct (le_lt_dec retries failures); [discriminate |].
    apply IH. lia.
Qed.

Lemma promiseGetter_returned net d s :
  promiseGetter net d = Returned s ->
  offset s = q_offset d /\ count s = q_count d.
Proof. apply retryLoop_returned. Qed.

(** After [k] failed attempts within the budget the loop stands at
    [failures = k]. *)
Lemma retryLoop_skip net off cnt k :
  (k <= retries)%nat ->
  (forall n, (n < k)%nat -> is_Some (attemptFailure (net off cnt n))) ->
  retryLoop net off cnt 0 = retryLoop net off cnt k.
Proof.
  induction k as [|k IH]; intros Hk Hfail; [reflexivity|].
  rewrite IH by (try lia; intros; apply Hfail; lia).
  rewrite (retryLoop_step net off cnt k).
  destruct (Hfail k ltac:(lia)) as [e He].
  rewrite (tryAttempt_failure _ _ _ _ He).
  destruct (le_lt_dec retries k); [lia | reflexivity].
Qed.

Lemma retry_exhausted net off cnt e :
  (forall n, (n < retries)%nat -> is_Some (attemptFailure (net off cnt n))) ->
  attemptFailure (net off cnt retries) = Some e ->
  downloadSegmentRetry net off cnt = Thrown e.
Proof.
  intros Hfail He. unfold downloadSegmentRetry.
  rewrite (retryLoop_skip net off cnt retries) by auto.
  rewrite retryLoop_step, (tryAttempt_failure _ _ _ _ He).
  destruct (le_lt_dec retries retries); [reflexivity | lia].
Qed.

Lemma retry_recovers net off cnt k body :
  (k <= retries)%nat ->
  (forall n, (n < k)%nat -> is_Some (attemptFailure (net off cnt n))) ->
  net off cnt k = Settles (Returned body) ->
  downloadSegmentRetry net off cnt =
  Returned {| offset := off; count := cnt; buffer := body |}.
Proof.
  intros Hk Hfail Hok. unfold downloadSegmentRetry.
  rewrite (retryLoop_skip net off cnt k) by auto.
  rewrite retryLoop_step, Hok. reflexivity.
Qed.

(** ** The partition into blocks *)

Lemma partitionLoop_lt len off acc :
  off < len ->
  partitionLoop len off acc =
  partitionLoop len (off + blockSize)
    (acc ++ [ {| q_offset := off; q_count := Z.min blockSize (len - off) |} ]).
Proof.
  intros H. rewrite partitionLoop_equation_1.
  destruct (Z_lt_dec off len); [reflexivity | lia].
Qed.

Lemma partitionLoop_ge len off acc :
  len <= off -> partitionLoop len off acc = acc.
Proof.
  intros H. rewrite partitionLoop_equation_1.
  destruct (Z_lt_dec off len); [lia | reflexivity].
Qed.

(** Induction along the loop: from [off] to [off + blockSize] while
    [off < len]. *)
Lemma partition_ind (len : Z) (P : Z -> Prop) :
  (forall off, len <= off -> P off) ->
  (forall off, off < len -> P (off + blockSize) -> P off) ->
  forall off, P off.
Proof.
  intros Hstop Hnext off.
  remember (Z.to_nat (len - off)) as fuel eqn:Hfuel.
  revert off Hfuel.
  induction fuel as [fuel IH] using lt_wf_ind; intros off Hfuel.
  destruct (Z_lt_dec off len) as [Hlt|Hge]; [|apply Hstop; lia].
  apply Hnext; [assumption|].
  apply (IH (Z.to_nat (len - (off + blockSize)))); [|reflexivity].
  unfold blockSize. lia.
Qed.

Lemma partitionLoop_acc len off acc :
  partitionLoop len off acc = acc ++ partitionLoop len off [].
Proof.
  revert acc. pattern off. apply (partition_ind len); clear off.
  - intros off H acc. rewrite !partitionLoop_ge by assumption.
    symmetry. apply app_nil_r.
  - intros off H IH acc.
    rewrite (partitionLoop_lt len off acc), (partitionLoop_lt len off []) by assumption.
    simpl. rewrite (IH (acc ++ _)), (IH [_]). rewrite <- app_assoc. reflexivity.
Qed.

Lemma blocksFrom_lt len off :
  off < len ->
  blocksFrom len off =
  {| q_offset := off; q_count := Z.min blockSize (len - off) |}
    :: blocksFrom len (off + blockSize).
Proof.
  intros H. unfold blocksFrom. rewrite partitionLoop_lt by assumption.
  rewrite partitionLoop_acc. reflexivity.
Qed.

Lemma blocksFrom_ge len off : len <= off -> blocksFrom len off = [].
Proof. apply partitionLoop_ge. Qed.

(** The [i]-th block from [off] on: it exists exactly when its offset is
    below [len], starts [i] whole blocks after [off], and is cut to what
    remains. *)
Lemma blocksFrom_lookup len off (i : nat) :
  blocksFrom len off !! i =
  if decide (off + Z.of_nat i * blockSize < len)
  then Some {| q_offset := off + Z.of_nat i * blockSize;
               q_count := Z.min blockSize (len - (off + Z.of_nat i * blockSize)) |}
  else None.
Proof.
  revert i. pattern off. apply (partition_ind len); clear off.
  - intros off H i. rewrite blocksFrom_ge by assumption.
    case_decide; [unfold blockSize in *; lia | reflexivity].
  - intros off H IH [|i].
    + rewrite blocksFrom_lt by assumption. simpl.
      rewrite Z.add_0_r. case_decide; [reflexivity | lia].
    + rewrite blocksFrom_lt by assumption. simpl. rewrite IH.
      replace (off + blockSize + Z.of_nat i * blockSize)
        with (off + Z.of_nat (S i) * blockSize) by lia.
      reflexivity.
Qed.


Lemma blocksFrom_offsets_ge len off d :
  d ∈ blocksFrom len off -> off <= q_offset d.
Proof.
  intros [i Hi]%list_elem_of_lookup. rewrite blocksFrom_lookup in Hi.
  case_decide; [|discriminate]. inversion Hi; subst; simpl.
  unfold blockSize. lia.
Qed.

Lemma blocksFrom_NoDup len off : NoDup (map q_offset (blocksFrom len off)).
Proof.
  pattern off. apply (partition_ind len); clear off.
  - intros off H. rewrite blocksFrom_ge by assumption. constructor.
  - intros off H IH. rewrite blocksFrom_lt by assumption. simpl.
    constructor; [|assumption].
    intros (d & Hd & Hin)%list_elem_of_fmap.
    apply blocksFrom_offsets_ge in Hin. simpl in Hd. unfold blockSize in *. lia.
Qed.

Lemma blocks_NoDup len : NoDup (map q_offset (blocks len)).
Proof. apply blocksFrom_NoDup. Qed.

(** ** The dispatch and drain loops *)

Lemma pop_rev_nil {A : Type} : pop (rev (@nil A)) = None.
Proof. reflexivity. Qed.

Lemma pop_rev_cons {A : Type} (d : A) (l : list A) :
  pop (rev (d :: l)) = Some (d, rev l).
Proof. unfold pop. rewrite rev_involutive. reflexivity. Qed.

Lemma sumCounts_app l1 l2 : sumCounts (l1 ++ l2) = sumCounts l1 + sumCounts l2.
Proof. induction l1 as [|d l1 IH]; simpl; [reflexivity | rewrite IH; lia]. Qed.

Section Engine.

Variable net : network.
Variables limit len : Z.

Lemma Inv_start : Inv net limit len (start len).
Proof.
  exists [], [], (blocks len). simpl.
  rewrite map_to_list_empty.
  split_and!; auto; try constructor; lia.
Qed.

Lemma offsets_apart (W A P : list QueuedDownload) d d' :
  W ++ A ++ d :: P ≡ₚ blocks len ->
  d' ∈ A -> q_offset d' <> q_offset d.
Proof.
  intros Hperm Hin Heq.
  pose proof (blocks_NoDup len) as Hnd.
  rewrite <- Hperm in Hnd.
  rewrite !map_app in Hnd. simpl in Hnd.
  apply NoDup_app in Hnd as (_ & _ & Hnd).
  apply NoDup_app in Hnd as (_ & Hnd & _).
  apply (Hnd (q_offset d')).
  - apply list_elem_of_fmap. eauto.
  - rewrite Heq. left.
Qed.

(** The promise picked by the race is the fetch of a block in flight. *)
Lemma picked_inflight (m : machine) (actQ : list QueuedDownload) pick v :
  map_to_list (activeDownloads m) ≡ₚ map (launchedAs net) actQ ->
  (map_to_list (activeDownloads m)).*2
    !! (pick mod length (map_to_list (activeDownloads m)).*2)%nat = Some v ->
  exists d, d ∈ actQ /\ v = promiseGetter net d /\
            activeDownloads m !! q_offset d = Some v.
Proof.
  intros Hperm Hlook.
  rewrite list_lookup_fmap in Hlook.
  destruct (map_to_list (activeDownloads m) !! _) as [[k v']|] eqn:Hkv;
    simpl in Hlook; inversion Hlook; subst.
  apply list_elem_of_lookup_2 in Hkv.
  assert (Hin : (k, v) ∈ map (launchedAs net) actQ) by (rewrite <- Hperm; exact Hkv).
  apply list_elem_of_fmap in Hin as (d & Hd & Hin).
  inversion Hd; subst.
  exists d. repeat split; auto.
  apply elem_of_map_to_list. exact Hkv.
Qed.

Lemma race_settles (m : machine) (actQ : list QueuedDownload) pick :
  map_to_list (activeDownloads m) ≡ₚ map (launchedAs net) actQ ->
  (1 <= length actQ)%nat ->
  is_Some ((map_to_list (activeDownloads m)).*2
             !! (pick mod length (map_to_list (activeDownloads m)).*2)%nat).
Proof.
  intros Hperm Hn. apply lookup_lt_is_Some.
  apply Nat.mod_upper_bound.
  rewrite length_fmap, (Permutation_length Hperm), length_map. lia.
Qed.

(** [waitAndWrite] from a control point with a fetch in flight: it writes the
    settled block and resumes, or rejects with that block's failure. *)
Lemma Inv_waitAndWrite (m : machine) pick (resume : control) :
  Inv net limit len m ->
  1 <= actives m ->
  (forall n pending, (limit <= 1 -> n = 0%nat) ->
     Z.of_nat n < Z.max 1 limit ->
     (pc m = AtDrain -> pending = []) -> downloads m = rev pending ->
     placed net limit len resume n pending) ->
  (limit <= 1 -> pc m <> AtDrain) ->
  Inv net limit len (waitAndWrite pick resume m).
Proof.
  intros (W & A & P & Hq & Hact & Hw & Hperm & Hseq & Hn & Hmax & Hbytes & Hprog & Hcl & Hso & Hpl)
    Hpos Hresume Hdrain.
  unfold waitAndWrite.
  destruct (race_settles m A pick Hact ltac:(lia)) as [v Hv].
  rewrite Hv.
  destruct (picked_inflight m A pick v Hact Hv) as (d & Hd & -> & Hlook).
  destruct (promiseGetter net d) as [s|e] eqn:Hget.
  - destruct (promiseGetter_returned _ _ _ Hget) as [Hoff Hcnt].
    apply list_elem_of_split in Hd as (A1 & A2 & ->).
    exists (W ++ [d]), (A1 ++ A2), P. simpl.
    rewrite length_app in Hn, Hmax. simpl in Hn, Hmax.
    split_and!.
    + exact Hq.
    + rewrite Hoff.
      assert (Hd : launchedAs net d = (q_offset d, Returned s))
        by (unfold launchedAs; rewrite Hget; reflexivity).
      apply (Permutation_cons_inv (a := (q_offset d, Returned s))).
      etransitivity; [apply (map_to_list_delete _ _ _ Hlook)|].
      rewrite Hact, !map_app. simpl. rewrite Hd.
      symmetry. apply Permutation_middle.
    + apply Forall2_app; [exact Hw|].
      constructor; [|constructor].
      unfold wrote. simpl. rewrite Hget.
      destruct s; simpl in *; subst; auto.
    + rewrite <- Hperm, <- !app_assoc. simpl.
      apply Permutation_app_head. apply Permutation_middle.
    + intros Hl. rewrite <- (Hseq Hl).
      assert (A1 = [] /\ A2 = []) as [-> ->].
      { destruct A1, A2; simpl in *; auto; lia. }
      simpl. rewrite <- app_assoc. reflexivity.
    + rewrite Hn, !length_app. lia.
    + rewrite length_app. lia.
    + rewrite Hbytes, sumCounts_app, Hcnt. simpl. lia.
    + reflexivity.
    + exact Hcl.
    + exact Hso.
    + apply Hresume.
      * intros Hl. destruct A1, A2; simpl in *; auto; lia.
      * rewrite length_app. lia.
      * intros Hpc. rewrite Hpc in Hpl. apply Hpl.
      * exact Hq.
  - exists W, A, P. simpl. split_and!; auto.
    exists d. split; [|exact Hget].
    rewrite <- Hperm. set_solver.
Qed.

Lemma Inv_step (m : machine) pick :
  Inv net limit len m -> Inv net limit len (step net limit pick m).
Proof.
  intros HI. unfold step.
  destruct (pc m) eqn:Hpc; try exact HI.
  - (* AtDispatch *)
    destruct HI as
      (W & A & P & Hq & Hact & Hw & Hperm & Hseq & Hn & Hmax & Hbytes & Hprog & Hcl & Hso & Hpl).
    rewrite Hpc in Hpl. simpl in Hpl. rewrite Hq.
    destruct P as [|d P].
    + rewrite pop_rev_nil. exists W, A, []. simpl. split_and!; auto.
    + rewrite pop_rev_cons.
      exists W, (A ++ [d]), P. simpl.
      assert (Hfresh : activeDownloads m !! q_offset d = None).
      { destruct (activeDownloads m !! q_offset d) as [v|] eqn:Hlook; [|reflexivity].
        apply elem_of_map_to_list in Hlook. rewrite Hact in Hlook.
        apply list_elem_of_fmap in Hlook as (d' & Hd' & Hin).
        inversion Hd'.
        exfalso. eapply (offsets_apart W A P d d'); eauto. }
      split_and!.
      * reflexivity.
      * rewrite map_to_list_insert by exact Hfresh.
        rewrite map_app. simpl. rewrite <- Hact.
        apply Permutation_cons_append.
      * exact Hw.
      * rewrite <- Hperm, <- !app_assoc. reflexivity.
      * intros Hl. rewrite <- (Hseq Hl), <- !app_assoc. reflexivity.
      * rewrite Hn, length_app. simpl. lia.
      * rewrite length_app. simpl. lia.
      * exact Hbytes.
      * exact Hprog.
      * exact Hcl.
      * exact Hso.
      * rewrite Hn. destruct (Z.of_nat (length A) + 1 >=? limit) eqn:Hcmp;
          simpl; rewrite length_app; simpl; lia.
  - (* AtLimitWait *)
    apply Inv_waitAndWrite; [exact HI | | |].
    + destruct HI as (W & A & P & _ & _ & _ & _ & _ & Hn & _ & _ & _ & _ & _ & Hpl).
      rewrite Hpc in Hpl. simpl in Hpl. lia.
    + intros n pending _ Hlt _ _. exact Hlt.
    + intros _. rewrite Hpc. discriminate.
  - (* AtDrain *)
    destruct (actives m >? 0) eqn:Hpos.
    + assert (Hpl : exists A P : list QueuedDownload,
                                actives m = Z.of_nat (length A) /\
                                placed net limit len (pc m) (length A) P /\ downloads m = rev P).
      { destruct HI as (W & A & P & Hq & _ & _ & _ & _ & Hn & _ & _ & _ & _ & _ & Hpl).
        eauto. }
      destruct Hpl as (A & P & Hn & Hpl & Hq).
      rewrite Hpc in Hpl. simpl in Hpl.
      apply Inv_waitAndWrite; [exact HI | | |].
      * lia.
      * intros n pending _ Hlt Hnil Hq'. simpl. auto.
      * intros Hl. lia.
    + destruct HI as
        (W & A & P & Hq & Hact & Hw & Hperm & Hseq & Hn & Hmax & Hbytes & Hprog & Hcl & Hso & Hpl).
      rewrite Hpc in Hpl. simpl in Hpl. destruct Hpl as [Hlt ->].
      exists W, A, []. simpl. split_and!; auto.
      destruct A; [reflexivity | simpl in *; lia].
Qed.

Lemma Inv_steps schedule (m : machine) :
  Inv net limit len m -> Inv net limit len (steps net limit schedule m).
Proof.
  revert m. induction schedule as [|pick schedule IH]; intros m HI; [exact HI|].
  simpl. apply IH, Inv_step, HI.
Qed.

Lemma step_terminal (m : machine) pick :
  terminal (pc m) -> step net limit pick m = m.
Proof. unfold step. destruct (pc m); simpl; intros H; tauto. Qed.

Lemma movesLeft_wait (m : machine) pick (resume : control) (w : nat) :
  1 <= actives m ->
  (forall m', pc m' = resume ->
     movesLeft m' <= 2 * length (downloads m') + Z.to_nat (actives m') + w)%nat ->
  (movesLeft (waitAndWrite pick resume m)
   < 2 * length (downloads m) + Z.to_nat (actives m) + w)%nat.
Proof.
  intros Hpos Hw. unfold waitAndWrite.
  destruct (_ !! _) as [[s|e]|]; try (unfold movesLeft; simpl; lia).
  match goal with |- (movesLeft ?m' < _)%nat => specialize (Hw m' eq_refl) end.
  simpl in Hw. lia.
Qed.

Lemma movesLeft_step (m : machine) pick :
  Inv net limit len m -> ~ terminal (pc m) ->
  (movesLeft (step net limit pick m) < movesLeft m)%nat.
Proof.
  intros (W & A & P & Hq & _ & _ & _ & _ & Hn & _ & _ & _ & _ & _ & Hpl) Hrun.
  unfold step. destruct (pc m) eqn:Hpc; simpl in Hrun; try tauto.
  - rewrite Hq. destruct P as [|d P].
    + rewrite pop_rev_nil. unfold movesLeft. simpl. rewrite Hpc. lia.
    + rewrite pop_rev_cons. unfold movesLeft. simpl. rewrite Hpc, Hq, Hn.
      simpl. rewrite !length_app, !length_rev. simpl.
      destruct (_ >=? _); lia.
  - simpl in Hpl. unfold movesLeft at 2. rewrite Hpc.
    apply movesLeft_wait; [lia|].
    intros m' Hm'. unfold movesLeft. rewrite Hm'. lia.
  - destruct (actives m >? 0) eqn:Hpos.
    + unfold movesLeft at 2. rewrite Hpc.
      apply movesLeft_wait; [lia|].
      intros m' Hm'. unfold movesLeft. rewrite Hm'. lia.
    + unfold movesLeft. simpl. rewrite Hpc. lia.
Qed.

(** Enough moves end the function. *)
Lemma steps_terminal schedule (m : machine) :
  Inv net limit len m -> (movesLeft m <= length schedule)%nat ->
  terminal (pc (steps net limit schedule m)).
Proof.
  revert m. induction schedule as [|pick schedule IH]; intros m HI Hlen.
  - simpl in *. unfold movesLeft in Hlen.
    destruct (pc m); simpl; auto; lia.
  - simpl. apply IH; [apply Inv_step, HI|].
    destruct (pc m) eqn:Hpc;
      try (rewrite step_terminal by (rewrite Hpc; exact I);
           unfold movesLeft; rewrite Hpc; lia);
      pose proof (movesLeft_step m pick HI) as Hdec;
      rewrite Hpc in Hdec; simpl in Hdec, Hlen; specialize (Hdec (fun f => f)); lia.
Qed.

Lemma movesLeft_start : movesLeft (start len) = (2 * length (blocks len) + 2)%nat.
Proof. unfold movesLeft. simpl. rewrite length_rev. lia. Qed.

(** The archive of a machine that satisfies the invariant and has finished
    holds one write per block. *)
Lemma Inv_in_flight (m : machine) :
  Inv net limit len m -> Z.of_nat (size (activeDownloads m)) <= Z.max 1 limit.
Proof.
  intros (W & A & P & _ & Hact & _ & _ & _ & _ & Hmax & _).
  rewrite <- length_map_to_list, (Permutation_length Hact), length_map.
  exact Hmax.
Qed.

Lemma wrote_ranges (ws : list FileWrite) (ds : list QueuedDownload) :
  Forall2 (wrote net) ws ds -> map written ws = map range ds.
Proof.
  induction 1 as [|w d ws ds (Hp & Hl & _) _ IH]; simpl; [reflexivity|].
  rewrite IH. unfold written, range. rewrite Hp, Hl. reflexivity.
Qed.

Lemma Inv_finished (m : machine) :
  Inv net limit len m -> pc m = Finished ->
  map written (archive m) ≡ₚ map range (blocks len) /\
  (forall d, d ∈ blocks len -> exists s, promiseGetter net d = Returned s) /\
  bytesDownloaded m = sumCounts (blocks len) /\
  activeDownloads m = ∅ /\ downloads m = [] /\
  (forall w, w ∈ archive m -> exists d, d ∈ blocks len /\ wrote net w d) /\
  isDone (progress m) = (sumCounts (blocks len) =? len).
Proof.
  intros (W & A & P & Hq & Hact & Hw & Hperm & _ & _ & _ & Hbytes & Hprog & Hcl &
          Hso & Hpl) Hpc.
  rewrite Hpc in Hpl. destruct Hpl as [HA ->].
  destruct A; [|discriminate]. simpl in *. rewrite app_nil_r in Hperm.
  assert (Hsum : sumCounts W = sumCounts (blocks len))
    by (clear -Hperm; induction Hperm; simpl; lia).
  split_and!.
  - rewrite (wrote_ranges _ _ Hw). rewrite Hperm. reflexivity.
  - intros d Hd. rewrite <- Hperm in Hd.
    apply list_elem_of_lookup in Hd as [i Hi].
    destruct (Forall2_lookup_r _ _ _ _ _ Hw Hi) as (w & _ & _ & _ & Hget).
    eauto.
  - rewrite Hbytes. exact Hsum.
  - apply map_to_list_empty_iff. apply Permutation_nil_r. exact Hact.
  - exact Hq.
  - intros w [i Hi]%list_elem_of_lookup.
    destruct (Forall2_lookup_l _ _ _ _ _ Hw Hi) as (d & Hd & Hwd).
    exists d. split; [|exact Hwd].
    rewrite <- Hperm. eapply list_elem_of_lookup_2, Hd.
  - unfold isDone, getTransferredBytes. rewrite Hso, Hprog, Hbytes, Hcl, Hsum.
    reflexivity.
Qed.

Lemma Inv_sequential (m : machine) :
  Inv net limit len m -> limit <= 1 ->
  map written (archive m) `prefix_of` map range (blocks len).
Proof.
  intros (W & A & P & _ & _ & Hw & _ & Hseq & _) Hl.
  rewrite <- (Hseq Hl), (wrote_ranges _ _ Hw), map_app.
  apply prefix_app_r. reflexivity.
Qed.

Lemma Inv_not_pending (m : machine) : Inv net limit len m -> pc m <> Pending.
Proof.
  intros (W & A & P & _ & _ & _ & _ & _ & _ & _ & _ & _ & _ & _ & Hpl) Hpc.
  rewrite Hpc in Hpl. exact Hpl.
Qed.

Lemma Inv_rejected (m : machine) e :
  Inv net limit len m -> pc m = Rejected e ->
  exists d, d ∈ blocks len /\ promiseGetter net d = Thrown e.
Proof.
  intros (W & A & P & _ & _ & _ & _ & _ & _ & _ & _ & _ & _ & _ & Hpl) Hpc.
  rewrite Hpc in Hpl. exact Hpl.
Qed.

End Engine.

Lemma blocksFrom_sum len off :
  sumCounts (blocksFrom len off) = Z.max 0 (len - off).
Proof.
  pattern off. apply (partition_ind len); clear off.
  - intros off H. rewrite blocksFrom_ge by assumption. simpl. lia.
  - intros off H IH. rewrite blocksFrom_lt by assumption. simpl.
    rewrite IH. unfold blockSize. lia.
Qed.

Lemma blocks_lookup len (i : nat) d :
  blocks len !! i = Some d ->
  q_offset d = Z.of_nat i * blockSize /\
  0 < q_count d <= blockSize /\
  ((S i < length (blocks len))%nat -> q_count d = blockSize) /\
  (S i = length (blocks len) -> q_count d = len - q_offset d).
Proof.
  intros Hi. unfold blocks in *. fold (blocksFrom len 0) in *.
  pose proof (blocksFrom_lookup len 0 i) as Hl. rewrite Hi in Hl.
  case_decide as Hlt; [|discriminate]. inversion Hl; subst; simpl. clear Hl.
  pose proof (blocksFrom_lookup len 0 (S i)) as Hnext.
  split_and!; try (unfold blockSize in *; lia).
  - intros Hlen. apply lookup_lt_is_Some in Hlen as [d' Hd'].
    rewrite Hd' in Hnext. case_decide; [|discriminate].
    unfold blockSize in *. lia.
  - intros Hlen.
    assert (Hnone : blocksFrom len 0 !! S i = None)
      by (apply lookup_ge_None; lia).
    rewrite Hnone in Hnext. case_decide; [discriminate|].
    unfold blockSize in *. lia.
Qed.





Lemma in_flight_bounded (net : network) (limit L : Z) (schedule : list nat) :
  Z.of_nat (size (activeDownloads (steps net limit schedule (start L))))
  <= Z.max 1 limit.
Proof.
  apply (Inv_in_flight net limit L), Inv_steps, Inv_start.
Qed.

(** C2 (as amended). At every point of [downloadCacheHttpClientConcurrent],
    for every completion order, the number of entries of [activeDownloads]
    is at most the larger of 1 and the limit
    [options.downloadConcurrency ?? 10]: at most the limit when that is 1 or
    more, at most 10 when none is configured.  With limit 1 at most one fetch
    is in flight and the blocks are written in the order they were queued. *)
Theorem C2_in_flight_bounded (probe : outcome (option string)) (net : network)
  (options : DownloadOptions) (schedule : list nat) :
  let limit := concurrencyLimit options in
  let m := downloadCacheHttpClientConcurrent probe net options schedule in
  (Z.of_nat (size (activeDownloads m)) <=? Z.max 1 limit) = true /\
  (1 <= limit -> Z.of_nat (size (activeDownloads m)) <= limit) /\
  (downloadConcurrency options = None -> (size (activeDownloads m) <= 10)%nat) /\
  (limit = 1 ->
   (size (activeDownloads m) <= 1)%nat /\
   forall header L,
     probe = Returned (Some header) -> parseInt header = Some L ->
     map written (archive m) `prefix_of` map range (blocks L)).
Proof.
  cbv zeta.
  assert (Hmax : Z.of_nat (size (activeDownloads
                   (downloadCacheHttpClientConcurrent probe net options schedule)))
                 <= Z.max 1 (concurrencyLimit options)).
  { assert (Hfailed : forall e, Z.of_nat (size (activeDownloads (failed e)))
                                <= Z.max 1 (concurrencyLimit options)).
    { intros e. change (size (activeDownloads (failed e))) with 0%nat. lia. }
    unfold downloadCacheHttpClientConcurrent.
    destruct probe as [[header|]|e]; [| apply Hfailed | apply Hfailed].
    destruct (parseInt header) as [L|]; [| apply Hfailed].
    apply in_flight_bounded. }
  split_and!.
  - apply Z.leb_le. exact Hmax.
  - intros H1. rewrite Z.max_r in Hmax by exact H1. exact Hmax.
  - intros Hnone.
    assert (Hten : concurrencyLimit options = 10)
      by (unfold concurrencyLimit; rewrite Hnone; reflexivity).
    rewrite Hten in Hmax. apply Nat2Z.inj_le. exact Hmax.
  - intros H1. split; [rewrite H1 in Hmax; apply Nat2Z.inj_le; exact Hmax|].
    intros header L -> Hparse.
    unfold downloadCacheHttpClientConcurrent. rewrite Hparse.
    apply (Inv_sequential net (concurrencyLimit options) L);
      [apply Inv_steps, Inv_start | lia].
Qed.

(** With the limit configured as 0 one fetch is in flight after the first
    block is launched: more than the limit. *)
Lemma C2_limit_zero_one_in_flight :
  let options := withConcurrency 0 in
  let m := downloadCacheHttpClientConcurrent (Returned (Some "1"))
             steadyNetwork options [0%nat] in
  concurrencyLimit options = 0 /\
  size (activeDownloads m) = 1%nat /\
  (Z.of_nat (size (activeDownloads m)) <=? concurrencyLimit options) = false.
Proof. vm_compute. auto. Qed.

(** Limit 1 over the three blocks of 10000000 bytes, stopped after four
    moves: no more than one fetch in flight, and the two writes made so far
    are those of the first two blocks, in order. *)
Lemma C2_limit_one_is_sequential :
  let m := downloadCacheHttpClientConcurrent (Returned (Some "10000000"))
             steadyNetwork (withConcurrency 1) [0; 0; 0; 0]%nat in
  (size (activeDownloads m) <= 1)%nat /\
  map written (archive m) = [(0, 4194304); (4194304, 4194304)] /\
  map written (archive m) `prefix_of` map range (blocks 10000000).
Proof.
  destruct (C2_in_flight_bounded (Returned (Some "10000000")) steadyNetwork
              (withConcurrency 1) [0; 0; 0; 0]%nat) as (_ & _ & _ & Hone).
  destruct (Hone eq_refl) as [Hsize Hprefix].
  split_and!; [exact Hsize | reflexivity | exact (Hprefix _ _ eq_refl eq_refl)].
Defined.

(** C3. [downloadSegmentRetry] makes up to [retries = 5] attempts beyond the
    first, whatever the failure: when the first six attempts fail it throws
    the failure of the sixth, and a download that has that block ends
    rejected with the final failure of one of its blocks, for every
    completion order; when [k <= 5] attempts fail and the next one succeeds
    it returns the segment with the requested offset and count and the bytes
    received. *)
Theorem C3_retry_budget (net : network) (off cnt : Z) :
  retries = 5%nat /\
  (forall e,
     (forall n, (n <= 5)%nat -> is_Some (attemptFailure (net off cnt n))) ->
     attemptFailure (net off cnt 5%nat) = Some e ->
     downloadSegmentRetry net off cnt = Thrown e /\
     forall header L options schedule,
       parseInt header = Some L ->
       {| q_offset := off; q_count := cnt |} ∈ blocks L ->
       (2 * length (blocks L) + 2 <= length schedule)%nat ->
       exists e' d,
         pc (downloadCacheHttpClientConcurrent (Returned (Some header))
               net options schedule) = Rejected e' /\
         d ∈ blocks L /\ promiseGetter net d = Thrown e') /\
  (forall (k : nat) body,
     (k <= 5)%nat ->
     (forall n, (n < k)%nat -> is_Some (attemptFailure (net off cnt n))) ->
     net off cnt k = Settles (Returned body) ->
     downloadSegmentRetry net off cnt =
     Returned {| offset := off; count := cnt; buffer := body |}).
Proof.
  split_and!.
  - reflexivity.
  - intros e Hfail He.
    assert (Hthrow : downloadSegmentRetry net off cnt = Thrown e).
    { apply retry_exhausted; [|exact He].
      intros n Hn. apply Hfail. unfold retries in Hn. lia. }
    split; [exact Hthrow|].
    intros header L options schedule Hparse Hin Hlen.
    unfold downloadCacheHttpClientConcurrent. rewrite Hparse.
    set (limit := concurrencyLimit options).
    pose proof (Inv_steps net limit L schedule _ (Inv_start net limit L)) as HI.
    pose proof (steps_terminal net limit L schedule _ (Inv_start net limit L)) as Hend.
    rewrite movesLeft_start in Hend. specialize (Hend Hlen).
    destruct (pc (steps net limit schedule (start L))) eqn:Hpc; simpl in Hend;
      try tauto.
    + destruct (Inv_finished net limit L _ HI Hpc) as (_ & Hall & _).
      destruct (Hall _ Hin) as [s Hs].
      unfold promiseGetter in Hs. simpl in Hs. congruence.
    + destruct (Inv_rejected net limit L _ e0 HI Hpc) as (d & Hd & Hget).
      eauto.
    + exfalso. exact (Inv_not_pending net limit L _ HI Hpc).
  - intros k body Hk Hfail Hok.
    apply (retry_recovers net off cnt k body); auto.
Qed.

(** Five timeouts and then a body: the segment is returned.  Six timeouts:
    the timeout error is thrown. *)
Lemma C3_five_failures_then_success :
  downloadSegmentRetry flakyNetwork 0 4 =
    Returned {| offset := 0; count := 4; buffer := [] |} /\
  downloadSegmentRetry deadNetwork 0 4 =
    Thrown (Error "downloadSegmentRetry failed due to timeout") /\
  pc (downloadCacheHttpClientConcurrent (Returned (Some "4")) deadNetwork
        (withConcurrency 2) [0; 0; 0; 0]%nat) =
    Rejected (Error "downloadSegmentRetry failed due to timeout").
Proof.
  destruct (C3_retry_budget flakyNetwork 0 4) as (_ & _ & Hok).
  destruct (C3_retry_budget deadNetwork 0 4) as (_ & Hfail & _).
  assert (Hdead : forall n : nat, (n <= 5)%nat ->
            is_Some (attemptFailure (deadNetwork 0 4 n)))
    by (intros n _; simpl; eauto).
  destruct (Hfail _ Hdead eq_refl) as [Hthrow Habort].
  split_and!.
  - apply (Hok 5%nat []); [lia | | reflexivity].
    intros n Hn. unfold flakyNetwork.
    destruct (Nat.ltb_spec n 5); [simpl; eauto | lia].
  - exact Hthrow.
  - assert (Hb : blocks 4 = [ {| q_offset := 0; q_count := 4 |} ]) by reflexivity.
    destruct (Habort "4" 4 (withConcurrency 2) [0; 0; 0; 0]%nat eq_refl)
      as (e' & d & Hpc & _);
      [rewrite Hb; left | rewrite Hb; simpl; lia |].
    rewrite Hpc. vm_compute in Hpc. inversion Hpc; subst. reflexivity.
Defined.

(** ** [parseInt] on decimal numerals *)












(** ** The version fingerprint *)

Lemma chars_app (s t : string) : chars (s +:+ t) = chars s ++ chars t.
Proof.
  induction s as [|c s IH]; [reflexivity|].
  change (String c s +:+ t) with (String c (s +:+ t)).
  unfold chars in *. simpl. rewrite IH. reflexivity.
Qed.

Lemma chars_inj (s t : string) : chars s = chars t -> s = t.
Proof.
  intros H. rewrite <- (string_of_list_ascii_of_string s),
    <- (string_of_list_ascii_of_string t).
  unfold chars in H. rewrite H. reflexivity.
Qed.

Lemma sepFreeb_sound (s : string) : sepFreeb s = true -> sepFree s.
Proof.
  unfold sepFreeb, sepFree. intros H Hin.
  rewrite forallb_forall in H.
  apply list_elem_of_In, H in Hin.
  rewrite Ascii.eqb_refl in Hin. discriminate.
Qed.

Lemma versionComponents_tail w paths cm x :
  versionComponents w paths cm x = paths ++ versionTail w cm x.
Proof.
  unfold versionTail, versionComponents.
  destruct cm as [[|c r]|]; destruct (_ && _); simpl;
    rewrite <- ?app_assoc; try reflexivity.
Qed.

Lemma versionTail_salt w cm x :
  exists middle, versionTail w cm x = middle ++ [versionSalt].
Proof.
  unfold versionTail, versionComponents.
  destruct cm as [[|c r]|]; destruct (_ && _); simpl;
    first [ exists []; reflexivity
          | eexists [_]; reflexivity
          | eexists [_; _]; reflexivity ].
Qed.

Lemma join_cons sep a b l :
  join sep (a :: b :: l) = a +:+ sep +:+ join sep (b :: l).
Proof. reflexivity. Qed.

Lemma join_app sep (l1 l2 : list string) :
  l1 <> [] -> l2 <> [] ->
  join sep (l1 ++ l2) = join sep l1 +:+ sep +:+ join sep l2.
Proof.
  intros H1 H2. induction l1 as [|a l1 IH]; [congruence|].
  destruct l1 as [|b l1].
  - simpl. destruct l2; [congruence | reflexivity].
  - change ((a :: b :: l1) ++ l2) with (a :: b :: (l1 ++ l2)).
    rewrite !join_cons.
    change (b :: l1 ++ l2) with ((b :: l1) ++ l2).
    rewrite IH by discriminate.
    apply chars_inj. rewrite !chars_app, <- !app_assoc. reflexivity.
Qed.

(** Two lists that agree after a first separator-free part each agree on
    that part. *)
Lemma split_unique {A : Type} (sep : A) (a b r1 r2 : list A) :
  sep ∉ a -> sep ∉ b -> a ++ sep :: r1 = b ++ sep :: r2 -> a = b /\ r1 = r2.
Proof.
  revert b. induction a as [|c a IH]; intros [|c' b] Ha Hb Heq;
    simpl in Heq; inversion Heq; subst.
  - auto.
  - exfalso. apply Hb. left.
  - exfalso. apply Ha. left.
  - destruct (IH b) as [-> ->]; auto.
    + intros H. apply Ha. right. exact H.
    + intros H. apply Hb. right. exact H.
Qed.

(** [join] is injective on non-empty lists of separator-free strings. *)
Lemma join_inj (l1 l2 : list string) :
  l1 <> [] -> l2 <> [] -> Forall sepFree l1 -> Forall sepFree l2 ->
  join "|" l1 = join "|" l2 -> l1 = l2.
Proof.
  revert l2. induction l1 as [|a l1 IH]; intros l2 H1 H2 F1 F2 Heq; [congruence|].
  destruct l2 as [|b l2]; [congruence|].
  apply Forall_cons in F1 as [Fa F1]. apply Forall_cons in F2 as [Fb F2].
  destruct l1 as [|a' l1], l2 as [|b' l2].
  - simpl in Heq. congruence.
  - exfalso. rewrite join_cons in Heq. simpl in Heq. subst a.
    apply Fa. unfold sepFree. rewrite !chars_app. set_solver.
  - exfalso. rewrite join_cons in Heq. simpl in Heq. subst b.
    apply Fb. unfold sepFree. rewrite !chars_app. set_solver.
  - rewrite !join_cons in Heq.
    apply (f_equal chars) in Heq. rewrite !chars_app in Heq.
    apply split_unique in Heq as [Hab Hrest]; [|exact Fa|exact Fb].
    apply chars_inj in Hab, Hrest. subst b.
    f_equal. apply IH; auto; discriminate.
Qed.

(** The text that is hashed determines the path selectors, in order, when
    none of them contains the separator. *)
Lemma versionInput_inj w cm x (p1 p2 : list string) :
  Forall sepFree p1 -> Forall sepFree p2 ->
  join "|" (versionComponents w p1 cm x) = join "|" (versionComponents w p2 cm x) ->
  p1 = p2.
Proof.
  intros F1 F2 Heq. rewrite !versionComponents_tail in Heq.
  destruct (versionTail_salt w cm x) as [middle Htail].
  assert (Hne : versionTail w cm x <> []).
  { rewrite Htail. destruct middle; discriminate. }
  assert (Hlen : forall p, p <> [] ->
            join "|" (p ++ versionTail w cm x) <> join "|" (versionTail w cm x)).
  { intros p Hp H. rewrite join_app in H by assumption.
    apply (f_equal chars) in H. rewrite !chars_app in H.
    apply (f_equal length) in H. rewrite !length_app in H. simpl in H. lia. }
  destruct p1 as [|a p1], p2 as [|b p2]; [reflexivity | | |].
  - exfalso. apply (Hlen (b :: p2)); [discriminate | symmetry; exact Heq].
  - exfalso. apply (Hlen (a :: p1)); [discriminate | exact Heq].
  - rewrite !join_app in Heq by (assumption || discriminate).
    apply (f_equal chars) in Heq. rewrite !chars_app in Heq.
    rewrite !app_assoc in Heq. apply app_inv_tail in Heq.
    apply app_inv_tail in Heq. apply chars_inj in Heq.
    apply join_inj; auto; discriminate.
Qed.

(** C4 (as amended). [getCacheVersion] is a function of the path selectors
    in their order, the compression method, the cross-OS flag, the platform
    and the digest: worlds that agree on the last two give the same
    fingerprint.  The hashed components are the path selectors in the order
    given, then what the method, flag and platform add, and last the salt
    "1.0".  Two different lists of path selectors (in particular two distinct
    permutations of one list), none containing "|", hash different texts, so
    their fingerprints differ unless SHA-256 collides on those two texts. *)
Theorem C4_version_deterministic_and_ordered (w : World) (cm : option string)
  (x : option bool) :
  (forall w' paths,
     platform w' = platform w -> (forall s, sha256hex w' s = sha256hex w s) ->
     getCacheVersion w' paths cm x = getCacheVersion w paths cm x) /\
  (forall paths,
     getCacheVersion w paths cm x =
     sha256hex w (join "|" (versionComponents w paths cm x)) /\
     versionComponents w paths cm x = paths ++ versionTail w cm x) /\
  (exists middle, versionTail w cm x = middle ++ [versionSalt]) /\
  versionSalt = "1.0" /\
  (forall p1 p2,
     Forall sepFree p1 -> Forall sepFree p2 -> p1 <> p2 ->
     join "|" (versionComponents w p1 cm x) <> join "|" (versionComponents w p2 cm x) /\
     (getCacheVersion w p1 cm x = getCacheVersion w p2 cm x ->
      exists a b, a <> b /\ sha256hex w a = sha256hex w b)).
Proof.
  split_and!.
  - intros w' paths Hplat Hhash. unfold getCacheVersion. rewrite Hhash.
    unfold versionComponents. rewrite Hplat. reflexivity.
  - intros paths. split; [reflexivity | apply versionComponents_tail].
  - apply versionTail_salt.
  - reflexivity.
  - intros p1 p2 F1 F2 Hne.
    assert (Hin : join "|" (versionComponents w p1 cm x)
                  <> join "|" (versionComponents w p2 cm x)).
    { intros Heq. apply Hne. eapply versionInput_inj; eauto. }
    split; [exact Hin|].
    intros Hv. unfold getCacheVersion in Hv. eauto.
Qed.

(** The selectors "a" and "a|a" in either order are joined to the same text,
    so the two orders have the same fingerprint under every digest. *)
Lemma C4_separator_in_selector_collides :
  let p1 := ["a"; "a|a"] in
  let p2 := ["a|a"; "a"] in
  p1 ≡ₚ p2 /\ p1 <> p2 /\
  (forall w cm x,
     join "|" (versionComponents w p1 cm x) = join "|" (versionComponents w p2 cm x) /\
     getCacheVersion w p1 cm x = getCacheVersion w p2 cm x).
Proof.
  cbv zeta. split_and!.
  - apply perm_swap.
  - discriminate.
  - intros w cm x.
    assert (Hjoin : join "|" (versionComponents w ["a"; "a|a"] cm x) =
                    join "|" (versionComponents w ["a|a"; "a"] cm x)).
    { unfold versionComponents.
      destruct cm as [[|c r]|]; destruct (_ && _); reflexivity. }
    split; [exact Hjoin|]. unfold getCacheVersion. rewrite Hjoin. reflexivity.
Qed.

(** Selectors without "|": swapping them changes the text that is hashed. *)
Lemma C4_swapped_selectors_differ :
  getCacheVersion (plainWorld silentClient) ["src"; "target"] (Some "zstd") None =
    "src|target|zstd|1.0" /\
  join "|" (versionComponents (plainWorld silentClient) ["src"; "target"] (Some "zstd") None)
  <> join "|" (versionComponents (plainWorld silentClient) ["target"; "src"] (Some "zstd") None).
Proof.
  destruct (C4_version_deterministic_and_ordered (plainWorld silentClient)
              (Some "zstd") None) as (_ & _ & _ & _ & Hord).
  split; [reflexivity|].
  apply Hord.
  - repeat constructor; apply sepFreeb_sound; reflexivity.
  - repeat constructor; apply sepFreeb_sound; reflexivity.
  - discriminate.
Defined.

(** ** Resolution of a cache entry *)

Lemma handleError_returns (e : error) (t : list event) :
  handleError e t = (Returned tt, t ++ handleErrorEvents e).
Proof.
  destruct e; unfold handleError, bind, emit; simpl;
    rewrite <- ?app_assoc; reflexivity.
Qed.

Lemma latestLoop_spec (rest seen : list ListedObject) (index : nat)
  (current : ListedObject) :
  latestFirstSeen seen index current ->
  exists best,
    latestFirstSeen (seen ++ rest)
      (latestLoop rest (length seen) index (LastModified current)) best.
Proof.
  revert seen index current.
  induction rest as [|o rest IH]; intros seen index current (Hcur & Hmax & Hfirst).
  - exists current. rewrite app_nil_r. simpl. split_and!; assumption.
  - simpl. destruct (Z.gtb_spec (LastModified o) (LastModified current)) as [Hgt|Hle].
    + destruct (IH (seen ++ [o]) (length seen) o) as [best Hbest].
      { split_and!.
        - rewrite lookup_app_r by lia. rewrite Nat.sub_diag. reflexivity.
        - intros o' [Hin | ->%list_elem_of_singleton]%elem_of_app; [|lia].
          specialize (Hmax o' Hin). lia.
        - intros j o' Hj Hlook. rewrite lookup_app_l in Hlook by exact Hj.
          apply list_elem_of_lookup_2 in Hlook. specialize (Hmax o' Hlook). lia. }
      exists best. rewrite length_app, Nat.add_1_r, <- app_assoc in Hbest.
      exact Hbest.
    + destruct (IH (seen ++ [o]) index current) as [best Hbest].
      { split_and!.
        - apply lookup_app_l_Some. exact Hcur.
        - intros o' [Hin | ->%list_elem_of_singleton]%elem_of_app; [auto | lia].
        - intros j o' Hj Hlook.
          rewrite lookup_app_l in Hlook
            by (apply lookup_lt_Some in Hcur; lia).
          eauto. }
      exists best. rewrite length_app, Nat.add_1_r, <- app_assoc in Hbest.
      exact Hbest.
Qed.

Lemma latestIndex_spec (first : ListedObject) (others : list ListedObject) :
  exists best,
    latestFirstSeen (first :: others) (latestIndex first others) best.
Proof.
  apply (latestLoop_spec others [first] 0 first).
  split_and!.
  - reflexivity.
  - intros o ->%list_elem_of_singleton. lia.
  - intros j o Hj. lia.
Qed.

Lemma restore_skip w client version key later t :
  noMatch (listing w client key) ->
  getRestoreKeysCacheEntry w client version (key :: later) t =
  getRestoreKeysCacheEntry w client version later
    (t ++ listRequest w key :: skipEvents w key (listing w client key)).
Proof.
  unfold listing. intros [Hempty | [e He]].
  - simpl. unfold bind, tryCatch, emit, await, ret. simpl.
    rewrite Hempty. simpl. rewrite <- !app_assoc. reflexivity.
  - simpl. unfold bind, tryCatch, emit, await, ret. simpl.
    rewrite He. simpl. rewrite handleError_returns. simpl.
    rewrite <- !app_assoc. reflexivity.
Qed.

Lemma restore_hit w client version key later t first others :
  listing w client key = Returned (first :: others) ->
  exists best,
    latestFirstSeen (first :: others) (latestIndex first others) best /\
    getRestoreKeysCacheEntry w client version (key :: later) t =
    (Returned (Some (hit version best)), t ++ [listRequest w key]).
Proof.
  unfold listing. intros Hlist.
  destruct (latestIndex_spec first others) as [best Hbest].
  exists best. split; [exact Hbest|].
  destruct Hbest as (Hlook & _).
  simpl. unfold bind, tryCatch, emit, await, ret. simpl.
  rewrite Hlist. simpl in *. rewrite Hlook. reflexivity.
Qed.

Lemma reply_cases (reply : outcome (list ListedObject)) :
  noMatch reply \/ matches reply.
Proof.
  destruct reply as [[|first others]|e]; unfold noMatch, matches; eauto.
Qed.

Lemma listRequests_app t1 t2 :
  listRequests (t1 ++ t2) = listRequests t1 ++ listRequests t2.
Proof. apply omap_app. Qed.

Lemma listRequests_handleError e : listRequests (handleErrorEvents e) = [].
Proof. destruct e; reflexivity. Qed.

Lemma listRequests_skip w key reply : listRequests (skipEvents w key reply) = [].
Proof.
  destruct reply as [c|e]; simpl; [reflexivity|].
  apply listRequests_handleError.
Qed.

Lemma listRequests_skipped w client skipped :
  listRequests (skippedEvents w client skipped) =
  map (fun k => (bucket w, location w (Some k), 100)) skipped.
Proof.
  induction skipped as [|k skipped IH]; [reflexivity|].
  unfold skippedEvents in *. simpl.
  change (listRequests (skipEvents w k (listing w client k) ++
            concat (map (fun k => listRequest w k :: skipEvents w k (listing w client k))
                        skipped)))
    with (listRequests (skipEvents w k (listing w client k) ++
            skippedEvents w client skipped)).
  rewrite listRequests_app, listRequests_skip. simpl.
  unfold skippedEvents. rewrite IH. reflexivity.
Qed.

Lemma restore_skipped w client version skipped rest t :
  Forall (fun k => noMatch (listing w client k)) skipped ->
  getRestoreKeysCacheEntry w client version (skipped ++ rest) t =
  getRestoreKeysCacheEntry w client version rest
    (t ++ skippedEvents w client skipped).
Proof.
  revert t. induction skipped as [|k skipped IH]; intros t Hskip.
  - unfold skippedEvents. simpl. rewrite app_nil_r. reflexivity.
  - apply Forall_cons in Hskip as [Hk Hskip].
    change ((k :: skipped) ++ rest) with (k :: (skipped ++ rest)).
    rewrite restore_skip by exact Hk. rewrite IH by exact Hskip.
    unfold skippedEvents. simpl. rewrite <- !app_assoc. reflexivity.
Qed.

(** C5. When the restore keys before [key] give no entry (their listing is
    empty, or fails) and the listing of [key] returns objects,
    [getRestoreKeysCacheEntry] returns the entry of the listed object with
    the latest modification time, the first such in the listing's order, and
    it has put listing requests for the keys up to [key] only, in order: the
    keys after [key] are never consulted, and the result does not depend on
    them. *)
Theorem C5_first_matching_restore_key_latest_object
  (w : World) (client : TosClient) (version : string)
  (skipped : list string) (key : string) (later : list string)
  (contents : list ListedObject) (t : list event) :
  Forall (fun k => noMatch (listing w client k)) skipped ->
  listing w client key = Returned contents ->
  contents <> [] ->
  exists (i : nat) best t',
    getRestoreKeysCacheEntry w client version (skipped ++ key :: later) t =
      (Returned (Some {| cacheKey := Some (Key best);
                         cacheVersion := Some version;
                         objectKey := Some (Key best) |}), t ++ t') /\
    contents !! i = Some best /\
    (forall o, o ∈ contents -> LastModified o <= LastModified best) /\
    (forall (j : nat) o, (j < i)%nat -> contents !! j = Some o ->
       LastModified o < LastModified best) /\
    listRequests t' =
      map (fun k => (bucket w, location w (Some k), 100)) (skipped ++ [key]) /\
    getRestoreKeysCacheEntry w client version (skipped ++ key :: later) t =
      getRestoreKeysCacheEntry w client version (skipped ++ [key]) t.
Proof.
  intros Hskip Hlist Hne.
  destruct contents as [|first others]; [congruence|].
  destruct (restore_hit w client version key later
              (t ++ skippedEvents w client skipped) first others Hlist)
    as (best & (Hlook & Hmax & Hfirst) & Hrun).
  destruct (restore_hit w client version key []
              (t ++ skippedEvents w client skipped) first others Hlist)
    as (best' & (Hlook' & _) & Hrun').
  assert (best' = best) as -> by congruence.
  exists (latestIndex first others), best,
    (skippedEvents w client skipped ++ [listRequest w key]).
  split_and!; auto.
  - rewrite restore_skipped by exact Hskip. rewrite Hrun, <- app_assoc. reflexivity.
  - rewrite listRequests_app, listRequests_skipped, map_app. reflexivity.
  - rewrite !restore_skipped by exact Hskip. rewrite Hrun, Hrun'. reflexivity.
Qed.

(** The scenario of the specification: nothing under "build-a", two objects
    under "build-b"; the later one is the entry, and "build-c" is not
    listed. *)
Lemma C5_build_a_build_b :
  exists t',
    getRestoreKeysCacheEntry (plainWorld twoBuilds) twoBuilds "v"
      ["build-a"; "build-b"; "build-c"] [] =
    (Returned (Some {| cacheKey := Some "caches/owner/repo/build-b-2";
                       cacheVersion := Some "v";
                       objectKey := Some "caches/owner/repo/build-b-2" |}), t') /\
    listRequests t' =
      [ (Some "bucket", "caches/owner/repo/build-a", 100);
        (Some "bucket", "caches/owner/repo/build-b", 100) ].
Proof.
  destruct (C5_first_matching_restore_key_latest_object
              (plainWorld twoBuilds) twoBuilds "v" ["build-a"] "build-b" ["build-c"]
              [ {| Key := "caches/owner/repo/build-b-1"; LastModified := 1000 |};
                {| Key := "caches/owner/repo/build-b-2"; LastModified := 2000 |} ]
              [])
    as (i & best & t' & Hrun & Hlook & Hmax & Hfirst & Hreq & _).
  - repeat constructor.
  - reflexivity.
  - discriminate.
  - exists t'. split; [|exact Hreq].
    destruct best as [bestKey bestTime].
    vm_compute in Hrun. inversion Hrun; subst. reflexivity.
Defined.

(** Every run of [getRestoreKeysCacheEntry] returns: with the entry of the
    first restore key that matches, or with [null] when none does.  Its
    listing requests are those of the restore keys it passed, each for at
    most 100 objects. *)
Lemma restore_run w client version keys t :
  exists r t',
    getRestoreKeysCacheEntry w client version keys t = (Returned r, t ++ t') /\
    (forall b p n, ListObjectsType2 b p n ∈ t' ->
       n = 100 /\ b = bucket w /\ exists k, k ∈ keys /\ p = location w (Some k)) /\
    match r with
    | Some entry =>
        exists skipped k later contents (i : nat) best,
          keys = skipped ++ k :: later /\
          Forall (fun k => noMatch (listing w client k)) skipped /\
          listing w client k = Returned contents /\
          latestFirstSeen contents i best /\
          entry = hit version best
    | None => Forall (fun k => noMatch (listing w client k)) keys
    end.
Proof.
  revert t. induction keys as [|k keys IH]; intros t.
  - exists None, []. simpl. unfold ret. rewrite app_nil_r.
    split_and!; [reflexivity | | constructor].
    intros b p n Hin. inversion Hin.
  - destruct (reply_cases (listing w client k)) as [Hno | (first & others & Hyes)].
    + destruct (IH (t ++ listRequest w k :: skipEvents w k (listing w client k)))
        as (r & t' & Hrun & Hreq & Hres).
      exists r, ((listRequest w k :: skipEvents w k (listing w client k)) ++ t').
      split_and!.
      * rewrite restore_skip by exact Hno. rewrite Hrun, <- app_assoc. reflexivity.
      * intros b p n [Hin | Hin]%elem_of_app.
        -- apply elem_of_cons in Hin as [Heq | Hin].
           ++ inversion Heq; subst. split_and!; auto. exists k. split; [left | reflexivity].
           ++ exfalso.
              assert (Hnone : (b, p, n) ∈ listRequests
                                (skipEvents w k (listing w client k))).
              { apply list_elem_of_omap. exists (ListObjectsType2 b p n). auto. }
              rewrite listRequests_skip in Hnone. inversion Hnone.
        -- destruct (Hreq b p n Hin) as (-> & -> & k' & Hk' & ->).
           split_and!; auto. exists k'. split; [right; exact Hk' | reflexivity].
      * destruct r as [entry|].
        -- destruct Hres as (skipped & k' & later & contents & i & best &
                             -> & Hskip & Hlist & Hbest & ->).
           exists (k :: skipped), k', later, contents, i, best.
           split_and!; auto.
        -- constructor; assumption.
    + destruct (restore_hit w client version k keys t first others Hyes)
        as (best & Hbest & Hrun).
      exists (Some (hit version best)), [listRequest w k].
      split_and!.
      * exact Hrun.
      * intros b p n Hin%list_elem_of_singleton.
        inversion Hin; subst.
        split_and!; auto. exists k. split; [left | reflexivity].
      * exists [], k, keys, (first :: others), (latestIndex first others), best.
        split_and!; auto.
Qed.

(** C9. Every listing request of [getRestoreKeysCacheEntry] asks for at most
    100 objects ([maxKeys] 100) under the prefix of one of the restore keys,
    and an entry it returns is that of an object in the page returned for
    such a request, the latest of that page: an object that is not in the
    returned page is never the entry, whatever its modification time. *)
Theorem C9_selection_within_bounded_page
  (w : World) (client : TosClient) (version : string)
  (restoreKeys : list string) (t : list event) :
  exists result t',
    getRestoreKeysCacheEntry w client version restoreKeys t =
      (Returned result, t ++ t') /\
    (forall b p n, ListObjectsType2 b p n ∈ t' ->
       n = 100 /\ b = bucket w /\
       exists k, k ∈ restoreKeys /\ p = location w (Some k)) /\
    (forall entry, result = Some entry ->
       exists k page best,
         k ∈ restoreKeys /\
         listObjectsType2 client (bucket w) (location w (Some k)) 100 = Returned page /\
         best ∈ page /\
         (forall o, o ∈ page -> LastModified o <= LastModified best) /\
         cacheKey entry = Some (Key best) /\
         objectKey entry = Some (Key best) /\
         (forall outside, Key outside ∉ map Key page ->
            objectKey entry <> Some (Key outside))).
Proof.
  destruct (restore_run w client version restoreKeys t)
    as (r & t' & Hrun & Hreq & Hres).
  exists r, t'. split_and!; [exact Hrun | exact Hreq |].
  intros entry ->.
  destruct Hres as (skipped & k & later & page & i & best &
                    -> & _ & Hlist & (Hlook & Hmax & _) & ->).
  exists k, page, best.
  apply list_elem_of_lookup_2 in Hlook.
  split_and!; auto.
  - apply elem_of_app. right. left.
  - intros outside Hout Heq. simpl in Heq. apply Hout.
    inversion Heq as [Hk].
    apply list_elem_of_fmap. exists best. auto.
Qed.

(** The newest object is the 101st under the prefix: the page of 100 does not
    hold it and an older object is the entry. *)
Lemma C9_newer_object_beyond_the_page :
  exists t',
    getRestoreKeysCacheEntry (plainWorld (pagedClient crowdedStore))
      (pagedClient crowdedStore) "v" ["k"] [] =
    (Returned (Some {| cacheKey := Some "caches/owner/repo/k-old";
                       cacheVersion := Some "v";
                       objectKey := Some "caches/owner/repo/k-old" |}), t').
Proof.
  destruct (C9_selection_within_bounded_page (plainWorld (pagedClient crowdedStore))
              (pagedClient crowdedStore) "v" ["k"] [])
    as (result & t' & Hrun & _).
  exists t'. rewrite Hrun. vm_compute in Hrun. inversion Hrun; subst. reflexivity.
Defined.

Lemma primary_run w version primaryKey t :
  getPrimaryKeyCacheEntry w (createObjectStorageClient w) version primaryKey t =
  (Returned
     match probe w primaryKey with
     | Returned _ =>
         Some {| cacheKey := primaryKey;
                 cacheVersion := Some version;
                 objectKey := Some (location w primaryKey) |}
     | Thrown _ => None
     end,
   t ++ probeEvents w primaryKey).
Proof.
  unfold getPrimaryKeyCacheEntry, probeEvents, probe, bind, tryCatch, emit, await, ret.
  destruct (headObject _ _ _) as [[]|e]; simpl; [reflexivity|].
  destruct (isNotFound e); simpl; rewrite <- ?app_assoc; reflexivity.
Qed.

Lemma getCacheEntry_hit w keys paths options t :
  (exists u, probe w (head keys) = Returned u) ->
  getCacheEntry w keys paths options t =
  (Returned (Some {| cacheKey := head keys;
                     cacheVersion := Some (versionOf w paths options);
                     objectKey := Some (location w (head keys)) |}),
   t ++ [HeadObject (bucket w) (location w (head keys))]).
Proof.
  intros [u Hu]. unfold getCacheEntry. fold (versionOf w paths options).
  unfold bind at 1. rewrite primary_run. unfold probeEvents. rewrite Hu.
  reflexivity.
Qed.

Lemma getCacheEntry_fallthrough w keys paths options t e :
  probe w (head keys) = Thrown e ->
  exists r t',
    getRestoreKeysCacheEntry w (createObjectStorageClient w)
      (versionOf w paths options) (tail keys) (t ++ probeEvents w (head keys)) =
      (Returned r, t') /\
    getCacheEntry w keys paths options t =
    match r with
    | Some entry => (Returned (Some entry), t')
    | None =>
        (Returned (Some (miss (versionOf w paths options))),
         t' ++ [ConsoleWarn ("Failed to find cache that matches keys: "
                             +:+ join "," keys)])
    end.
Proof.
  intros He.
  destruct (restore_run w (createObjectStorageClient w) (versionOf w paths options)
              (tail keys) (t ++ probeEvents w (head keys)))
    as (r & t' & Hrun & _).
  exists r, ((t ++ probeEvents w (head keys)) ++ t'). split; [exact Hrun|].
  unfold getCacheEntry. fold (versionOf w paths options).
  unfold bind at 1. rewrite primary_run, He.
  unfold bind at 1. rewrite Hrun.
  destruct r; reflexivity.
Qed.

(** C7. [getCacheEntry] always returns an entry: it never throws and never
    returns null.  A failure of the probe of the primary key (a 404 "not
    found" from the backend, or any other) is caught; the function then
    returns what the restore keys resolve to, and when no restore key
    matches either (each listing is empty or fails) it returns the entry
    that carries the computed version only, with neither [cacheKey] nor
    [objectKey]. *)
Theorem C7_resolution_never_throws (w : World) (keys paths : list string)
  (options : option InternalCacheOptions) (t : list event) :
  let client := createObjectStorageClient w in
  let version := versionOf w paths options in
  (exists entry t',
     getCacheEntry w keys paths options t = (Returned (Some entry), t ++ t') /\
     cacheVersion entry = Some version) /\
  (forall e, probe w (head keys) = Thrown e ->
     exists r t',
       getRestoreKeysCacheEntry w client version (tail keys)
         (t ++ probeEvents w (head keys)) = (Returned r, t') /\
       fst (getCacheEntry w keys paths options t) =
       Returned (Some (match r with Some entry => entry | None => miss version end))) /\
  (forall e, probe w (head keys) = Thrown e ->
     Forall (fun k => noMatch (listing w client k)) (tail keys) ->
     fst (getCacheEntry w keys paths options t) =
     Returned (Some {| cacheKey := None;
                       cacheVersion := Some version;
                       objectKey := None |})).
Proof.
  cbv zeta. split_and!.
  - destruct (probe w (head keys)) as [u|e] eqn:Hprobe.
    + eexists _, _. rewrite getCacheEntry_hit by eauto. split; reflexivity.
    + destruct (restore_run w (createObjectStorageClient w) (versionOf w paths options)
                  (tail keys) (t ++ probeEvents w (head keys)))
        as (r & t' & Hrun & _ & Hres).
      destruct (getCacheEntry_fallthrough w keys paths options t e Hprobe)
        as (r' & t'' & Hrun' & Hget).
      rewrite Hrun in Hrun'. inversion Hrun'; subst r' t''. rewrite Hget.
      destruct r as [entry|].
      * exists entry, (probeEvents w (head keys) ++ t').
        rewrite <- app_assoc. split; [reflexivity|].
        destruct Hres as (? & ? & ? & ? & ? & best & _ & _ & _ & _ & ->).
        reflexivity.
      * eexists _, (probeEvents w (head keys) ++ t' ++ [_]).
        rewrite <- !app_assoc. split; reflexivity.
  - intros e He.
    destruct (getCacheEntry_fallthrough w keys paths options t e He)
      as (r & t' & Hrun & Hget).
    exists r, t'. split; [exact Hrun|]. rewrite Hget. destruct r; reflexivity.
  - intros e He Hnone.
    destruct (getCacheEntry_fallthrough w keys paths options t e He)
      as (r & t' & Hrun & Hget).
    rewrite Hget.
    rewrite <- (app_nil_r (tail keys)) in Hrun.
    rewrite restore_skipped in Hrun by exact Hnone.
    simpl in Hrun. unfold ret in Hrun. inversion Hrun; subst. reflexivity.
Qed.

(** The primary key is absent (404) and so are both restore keys: a miss
    that carries the version only. *)
Lemma C7_structured_miss :
  fst (getCacheEntry (plainWorld silentClient) ["k1"; "k2"; "k3"] ["src"] None []) =
  Returned (Some {| cacheKey := None;
                    cacheVersion := Some "src|1.0";
                    objectKey := None |}).
Proof.
  destruct (C7_resolution_never_throws (plainWorld silentClient)
              ["k1"; "k2"; "k3"] ["src"] None []) as (_ & _ & Hmiss).
  apply (Hmiss (TosServerError "rid" 404 "" "NoSuchKey" "")).
  - reflexivity.
  - repeat constructor.
Defined.

Lemma location_longer (w : World) (key : string) :
  location w (Some key) <> key.
Proof.
  intros H. apply (f_equal chars) in H. unfold location in H.
  rewrite !chars_app in H. apply (f_equal length) in H.
  rewrite !length_app in H. simpl in H. lia.
Qed.

(** C10. The [cacheKey] of the entry [getCacheEntry] returns differs between
    the two kinds of hit.  When the probe of the primary key succeeds,
    [cacheKey] is the key as given and [objectKey] is
    [caches/<repository>/<key>], a different string.  When the probe fails
    and a restore key matches, [cacheKey] and [objectKey] are both the [Key]
    of the selected listed object, which is a full storage location under
    [caches/<repository>/<restore key>] whenever the backend's page holds
    only keys under the requested prefix. *)
Theorem C10_cacheKey_differs_between_hits (w : World) (keys paths : list string)
  (options : option InternalCacheOptions) (t : list event) :
  let client := createObjectStorageClient w in
  let version := versionOf w paths options in
  (forall primaryKey others u,
     keys = primaryKey :: others ->
     probe w (Some primaryKey) = Returned u ->
     exists entry,
       fst (getCacheEntry w keys paths options t) = Returned (Some entry) /\
       cacheKey entry = Some primaryKey /\
       objectKey entry =
         Some ("caches/" +:+ render (repo w) +:+ "/" +:+ primaryKey) /\
       cacheKey entry <> objectKey entry) /\
  (forall e entry location',
     probe w (head keys) = Thrown e ->
     fst (getCacheEntry w keys paths options t) = Returned (Some entry) ->
     objectKey entry = Some location' ->
     cacheKey entry = Some location' /\
     exists k page best,
       k ∈ tail keys /\
       listing w client k = Returned page /\
       best ∈ page /\
       location' = Key best /\
       ((forall o, o ∈ page -> exists rest, Key o = location w (Some k) +:+ rest) ->
        exists rest,
          location' = "caches/" +:+ render (repo w) +:+ "/" +:+ k +:+ rest)).
Proof.
  cbv zeta. split.
  - intros primaryKey others u -> Hu.
    rewrite getCacheEntry_hit by (simpl; eauto). simpl.
    eexists. split_and!; try reflexivity.
    simpl. intros H. inversion H as [Hk].
    symmetry in Hk. exact (location_longer w primaryKey Hk).
  - intros e entry location' He Hget Hobj.
    destruct (getCacheEntry_fallthrough w keys paths options t e He)
      as (r & t' & Hrun & Hget').
    rewrite Hget' in Hget.
    destruct (restore_run w (createObjectStorageClient w) (versionOf w paths options)
                (tail keys) (t ++ probeEvents w (head keys)))
      as (r' & t'' & Hrun' & _ & Hres).
    rewrite Hrun in Hrun'. inversion Hrun'; subst r'. clear Hrun'.
    destruct r as [entry'|]; simpl in Hget; inversion Hget; subst entry.
    + destruct Hres as (skipped & k & later & page & i & best &
                        Hkeys & _ & Hlist & (Hlook & _) & ->).
      simpl in Hobj. inversion Hobj; subst location'.
      split; [reflexivity|].
      exists k, page, best.
      apply list_elem_of_lookup_2 in Hlook.
      split_and!; auto.
      * rewrite Hkeys. apply elem_of_app. right. left.
      * intros Hprefix. destruct (Hprefix best Hlook) as [rest Hrest].
        exists rest. rewrite Hrest. unfold location. simpl.
        apply chars_inj. rewrite !chars_app, <- !app_assoc. reflexivity.
    + simpl in Hobj. discriminate.
Qed.

(** A primary-key hit on "k", and a restore-key hit on "build-b", in the
    same repository. *)
Lemma C10_primary_and_restore_hits :
  fst (getCacheEntry (plainWorld primaryPresent) ["k"] ["src"] None []) =
    Returned (Some {| cacheKey := Some "k";
                      cacheVersion := Some "src|1.0";
                      objectKey := Some "caches/owner/repo/k" |}) /\
  fst (getCacheEntry (plainWorld twoBuilds) ["k"; "build-b"] ["src"] None []) =
    Returned (Some {| cacheKey := Some "caches/owner/repo/build-b-2";
                      cacheVersion := Some "src|1.0";
                      objectKey := Some "caches/owner/repo/build-b-2" |}).
Proof.
  destruct (C10_cacheKey_differs_between_hits (plainWorld primaryPresent)
              ["k"] ["src"] None []) as (Hprimary & _).
  destruct (Hprimary "k" [] tt eq_refl eq_refl) as (entry & Hget & _).
  split; [|reflexivity].
  rewrite Hget. vm_compute in Hget. inversion Hget; subst. reflexivity.
Defined.

(** ** Saving *)

Lemma uploadFile_returns w cacheId archivePath t :
  uploadFile w (createObjectStorageClient w) cacheId archivePath t =
  (Returned tt, t ++ uploadEvents w cacheId archivePath).
Proof.
  unfold uploadFile, uploadEvents, putReply, bind, tryCatch, emit, await.
  destruct (putObjectFromFile _ _ _ _) as [[]|e]; simpl; [reflexivity|].
  rewrite handleError_returns, <- app_assoc. reflexivity.
Qed.

Lemma saveCache_run w cacheId archivePath t :
  saveCache w cacheId archivePath t =
  match getArchiveFileSizeInBytes w archivePath with
  | Returned cacheSize =>
      (Returned tt,
       t ++ CoreDebug "Upload cache" :: uploadEvents w cacheId archivePath ++
         [ CoreDebug "Commiting cache";
           CoreInfo ("Cache Size: ~" +:+ showZ (roundMiB cacheSize) +:+ " MB ("
                     +:+ showZ cacheSize +:+ " B)");
           CoreInfo "Cache saved successfully" ])
  | Thrown e =>
      (Thrown e,
       t ++ CoreDebug "Upload cache" :: uploadEvents w cacheId archivePath ++
         [ CoreDebug "Commiting cache" ])
  end.
Proof.
  unfold saveCache.
  unfold bind at 1. unfold emit at 1.
  unfold bind at 1. rewrite uploadFile_returns.
  unfold bind, emit, await.
  destruct (getArchiveFileSizeInBytes w archivePath) as [cacheSize|e]; simpl;
    rewrite <- !app_assoc; simpl; rewrite <- ?app_assoc; reflexivity.
Qed.

(** C6 (as amended). [uploadFile] never throws: a failure of the put is
    caught and logged, a server error with its request id, status code and
    error code.  [saveCache] therefore never throws because of the upload;
    it returns normally, after the upload's log, whenever the read of the
    archive size that follows the upload returns, and it throws exactly the
    failure of that read otherwise. *)
Theorem C6_upload_failures_are_swallowed (w : World) (cacheId archivePath : string)
  (t : list event) :
  let client := createObjectStorageClient w in
  (exists t',
     uploadFile w client cacheId archivePath t = (Returned tt, t ++ t') /\
     forall requestId statusCode headers code message,
       putReply w cacheId archivePath =
         Thrown (TosServerError requestId statusCode headers code message) ->
       ConsoleLog "Request ID:" (LogString requestId) ∈ t' /\
       ConsoleLog "Response Status Code:" (LogNumber statusCode) ∈ t' /\
       ConsoleLog "Response Err Code:" (LogString code) ∈ t') /\
  (forall cacheSize,
     getArchiveFileSizeInBytes w archivePath = Returned cacheSize ->
     exists t',
       saveCache w cacheId archivePath t = (Returned tt, t ++ t') /\
       CoreInfo "Cache saved successfully" ∈ t' /\
       forall requestId statusCode headers code message,
         putReply w cacheId archivePath =
           Thrown (TosServerError requestId statusCode headers code message) ->
         ConsoleLog "Request ID:" (LogString requestId) ∈ t' /\
         ConsoleLog "Response Status Code:" (LogNumber statusCode) ∈ t' /\
         ConsoleLog "Response Err Code:" (LogString code) ∈ t') /\
  (forall e,
     getArchiveFileSizeInBytes w archivePath = Thrown e ->
     fst (saveCache w cacheId archivePath t) = Thrown e).
Proof.
  cbv zeta.
  assert (Hlog : forall requestId statusCode headers code message,
            putReply w cacheId archivePath =
              Thrown (TosServerError requestId statusCode headers code message) ->
            ConsoleLog "Request ID:" (LogString requestId)
              ∈ uploadEvents w cacheId archivePath /\
            ConsoleLog "Response Status Code:" (LogNumber statusCode)
              ∈ uploadEvents w cacheId archivePath /\
            ConsoleLog "Response Err Code:" (LogString code)
              ∈ uploadEvents w cacheId archivePath).
  { intros requestId statusCode headers code message Hput.
    unfold uploadEvents. rewrite Hput. simpl.
    split_and!; repeat (first [left | right]). }
  split_and!.
  - exists (uploadEvents w cacheId archivePath).
    split; [apply uploadFile_returns | exact Hlog].
  - intros cacheSize Hsize. rewrite saveCache_run, Hsize.
    eexists. split_and!; [reflexivity | |].
    + right. apply elem_of_app. right. right. right. left.
    + intros requestId statusCode headers code message Hput.
      destruct (Hlog _ _ _ _ _ Hput) as (H1 & H2 & H3).
      split_and!; right; apply elem_of_app; left; assumption.
  - intros e He. rewrite saveCache_run, He. reflexivity.
Qed.

(** The archive is missing: the put fails and is logged, and then the read of
    the archive's size throws out of [saveCache]. *)
Lemma C6_size_read_failure_escapes :
  saveCache missingArchive "id" "/tmp/cache.tzst" [] =
  (Thrown (Error "ENOENT: no such file or directory, stat"),
   [ CoreDebug "Upload cache";
     PutObjectFromFile (Some "bucket") "caches/owner/repo/id" "/tmp/cache.tzst";
     ConsoleLog "Client Err Msg:" (LogString "ENOENT: no such file or directory");
     ConsoleLog "Client Err Stack:" (LogString "");
     CoreDebug "Commiting cache" ]).
Proof. reflexivity. Qed.

(** The scenario of the specification: the backend rejects the put with a
    server error; [saveCache] returns and the request id is in the log. *)
Lemma C6_rejected_upload_is_logged :
  exists t',
    saveCache rejectingBackend "id" "/tmp/cache.tzst" [] = (Returned tt, t') /\
    ConsoleLog "Request ID:" (LogString "req-42") ∈ t' /\
    CoreInfo "Cache Size: ~2 MB (1572864 B)" ∈ t'.
Proof.
  destruct (C6_upload_failures_are_swallowed rejectingBackend "id" "/tmp/cache.tzst" [])
    as (_ & Hsave & _).
  destruct (Hsave 1572864 eq_refl) as (t' & Hrun & _ & Hlog).
  destruct (Hlog "req-42" 500 "" "InternalError" "try later" eq_refl) as (Hid & _).
  exists t'. split_and!; auto.
  vm_compute in Hrun. inversion Hrun; subst.
  repeat (first [left | right]).
Defined.

(** * Further properties of the code *)

(** ** The concurrent downloader on any network *)




Lemma wrote_positions net (ws : list FileWrite) (ds : list QueuedDownload) :
  Forall2 (wrote net) ws ds ->
  map w_position ws = map q_offset ds /\
  fold_right (fun w acc => w_length w + acc) 0 ws = sumCounts ds.
Proof.
  induction 1 as [|w d ws ds (Hp & Hl & _) _ [IH1 IH2]]; simpl; [auto|].
  rewrite IH1, IH2, Hp, Hl. auto.
Qed.

(** X2. At every point of every run of
    [downloadCacheHttpClientConcurrent], also of a run that later fails,
    the archive holds no position twice, each write carries the bytes that
    the retried fetch of exactly its range returned, [bytesDownloaded] is
    the sum of the lengths written and is what the tracker has received,
    and [actives] is the number of entries of [activeDownloads]. *)
Theorem X2_partial_archive_is_sound (probe : outcome (option string))
  (net : network) (options : DownloadOptions) (schedule : list nat) :
  let m := downloadCacheHttpClientConcurrent probe net options schedule in
  NoDup (map w_position (archive m)) /\
  (forall w, w ∈ archive m ->
     downloadSegmentRetry net (w_position w) (w_length w) =
     Returned {| offset := w_position w; count := w_length w;
                 buffer := w_buffer w |}) /\
  bytesDownloaded m = fold_right (fun w acc => w_length w + acc) 0 (archive m) /\
  receivedBytes (progress m) = bytesDownloaded m /\
  actives m = Z.of_nat (size (activeDownloads m)).
Proof.
  assert (Hfailed : forall e,
    let m := failed e in
    NoDup (map w_position (archive m)) /\
    (forall w, w ∈ archive m ->
       downloadSegmentRetry net (w_position w) (w_length w) =
       Returned {| offset := w_position w; count := w_length w;
                   buffer := w_buffer w |}) /\
    bytesDownloaded m = fold_right (fun w acc => w_length w + acc) 0 (archive m) /\
    receivedBytes (progress m) = bytesDownloaded m /\
    actives m = Z.of_nat (size (activeDownloads m))).
  { intros e. simpl. split_and!; try reflexivity.
    - constructor.
    - intros w Hw. inversion Hw. }
  unfold downloadCacheHttpClientConcurrent.
  destruct probe as [[header|]|e]; try apply Hfailed.
  destruct (parseInt header) as [L|]; [|apply Hfailed].
  cbv zeta. set (limit := concurrencyLimit options).
  pose proof (Inv_steps net limit L schedule _ (Inv_start net limit L)) as HI.
  destruct HI as (W & A & P & _ & Hact & Hw & Hperm & _ & Hn & _ & Hbytes & Hprog & _).
  destruct (wrote_positions net _ _ Hw) as [Hpos Hsum].
  split_and!.
  - rewrite Hpos.
    pose proof (blocks_NoDup L) as Hnd.
    rewrite <- Hperm, map_app in Hnd.
    apply NoDup_app in Hnd. tauto.
  - intros w [i Hi]%list_elem_of_lookup.
    destruct (Forall2_lookup_l _ _ _ _ _ Hw Hi) as (d & _ & Hp & Hl & Hget).
    unfold promiseGetter in Hget. rewrite Hp, Hl. exact Hget.
  - rewrite Hsum. exact Hbytes.
  - exact Hprog.
  - rewrite Hn. f_equal.
    rewrite <- length_map_to_list, (Permutation_length Hact), length_map.
    reflexivity.
Qed.

(** X3. [downloadSegmentRetry] makes at most six attempts: what it gives
    depends on the first six attempts at the range only. *)
Theorem X3_retry_reads_six_attempts (net net' : network) (off cnt : Z) :
  (forall n, (n <= retries)%nat -> net off cnt n = net' off cnt n) ->
  downloadSegmentRetry net off cnt = downloadSegmentRetry net' off cnt.
Proof.
  intros Hsame. unfold downloadSegmentRetry.
  assert (Hloop : forall fuel failures,
    fuel = (retries - failures)%nat -> (failures <= retries)%nat ->
    retryLoop net off cnt failures = retryLoop net' off cnt failures).
  { induction fuel as [|fuel IH]; intros failures Hfuel Hle;
      rewrite (retryLoop_step net), (retryLoop_step net'), (Hsame _ Hle);
      destruct (tryAttempt _ _ _) as [r|err]; try reflexivity;
      destruct (le_lt_dec retries failures); try reflexivity.
    - lia.
    - apply IH; lia. }
  apply (Hloop _ 0%nat eq_refl). unfold retries. lia.
Qed.

(** A network that recovers at the seventh attempt is as good as one that
    never does. *)
Lemma X3_seventh_attempt_is_never_made :
  downloadSegmentRetry
    (fun _ _ n => if (n <? 6)%nat then TimerFirst else Settles (Returned [])) 0 8 =
  downloadSegmentRetry deadNetwork 0 8.
Proof.
  apply (X3_retry_reads_six_attempts
           (fun _ _ n => if (n <? 6)%nat then TimerFirst else Settles (Returned []))
           deadNetwork 0 8).
  intros n Hn. unfold retries in Hn. unfold deadNetwork.
  do 6 (destruct n as [|n]; [reflexivity|]). lia.
Defined.

(** ** The progress display *)

Lemma tracked_snoc L calls c :
  tracked L (calls ++ [c]) = call (tracked L calls) c.
Proof. unfold tracked. rewrite fold_left_app. reflexivity. Qed.

Lemma displayInv_call L state c :
  displayInv L state -> displayInv L (call state c).
Proof.
  destruct state as [p printed]. intros (Hlen & Hopen & Hclosed).
  destruct c as [size|received|]; simpl; [split_and!; auto .. |].
  unfold display. destruct (displayedComplete p) eqn:Hflag.
  - rewrite app_nil_r. simpl. rewrite Hflag. auto.
  - unfold isDone, getTransferredBytes.
    destruct (segmentOffset p + receivedBytes p =? contentLength p) eqn:Hdone;
      simpl; rewrite ?Hflag; split_and!; auto; try discriminate.
    + intros _. eexists printed, _. split_and!; [reflexivity | exact Hdone | auto].
    + intros _. apply Forall_app. split; [auto|].
      constructor; [exact Hdone | constructor].
Qed.

Lemma displayInv_tracked L calls : displayInv L (tracked L calls).
Proof.
  induction calls as [|c calls IH] using rev_ind.
  - simpl. split_and!; [reflexivity | constructor | discriminate].
  - rewrite tracked_snoc. apply displayInv_call, IH.
Qed.

(** X4. Whatever calls reach a [DownloadProgress] (segment changes,
    progress reports, and [display] from the timer, from
    [stopDisplayTimer] or directly), a line that shows the whole content as
    transferred is the last line it ever prints, so it is printed at most
    once; and [display] on a tracker that is done leaves exactly such a
    line last, a further [display] printing nothing. *)
Theorem X4_completion_line_is_last (L : Z) (calls : list trackerCall) :
  let p := fst (tracked L calls) in
  let printed := snd (tracked L calls) in
  (forall (i : nat) line,
     printed !! i = Some line -> complete line = true -> S i = length printed) /\
  (isDone p = true ->
   exists line,
     last (snd (tracked L (calls ++ [CallDisplay]))) = Some line /\
     complete line = true /\
     snd (tracked L (calls ++ [CallDisplay; CallDisplay])) =
     snd (tracked L (calls ++ [CallDisplay]))).
Proof.
  pose proof (displayInv_tracked L calls) as HI.
  destruct (tracked L calls) as [p printed] eqn:Hrun.
  destruct HI as (Hlen & Hopen & Hclosed). simpl.
  split.
  - intros i line Hi Hline.
    destruct (displayedComplete p) eqn:Hflag.
    + destruct (Hclosed eq_refl) as (init & l & -> & _ & Hinit).
      rewrite length_app. simpl.
      destruct (decide (i < length init)%nat) as [Hlt|Hge].
      * rewrite lookup_app_l in Hi by exact Hlt.
        rewrite Forall_forall in Hinit.
        apply list_elem_of_lookup_2, Hinit in Hi. congruence.
      * apply lookup_lt_Some in Hi. rewrite length_app in Hi. simpl in Hi. lia.
    + specialize (Hopen eq_refl). rewrite Forall_forall in Hopen.
      apply list_elem_of_lookup_2, Hopen in Hi. congruence.
  - intros Hdone.
    replace (calls ++ [CallDisplay; CallDisplay])
      with ((calls ++ [CallDisplay]) ++ [CallDisplay])
      by (rewrite <- app_assoc; reflexivity).
    rewrite (tracked_snoc L (calls ++ [CallDisplay])), tracked_snoc, Hrun.
    simpl. destruct (displayedComplete p) eqn:Hflag.
    + assert (Hshow : display p = (p, []))
        by (unfold display; rewrite Hflag; reflexivity).
      rewrite Hshow. simpl. rewrite Hshow. simpl. rewrite !app_nil_r.
      destruct (Hclosed eq_refl) as (init & l & -> & Hl & _).
      exists l. split_and!; [apply last_snoc | exact Hl | reflexivity].
    + assert (Hshow : display p =
                (markDisplayed p,
                 [ {| shownTransferred := segmentOffset p + receivedBytes p;
                      shownTotal := contentLength p |} ]))
        by (unfold display; rewrite Hflag, Hdone; reflexivity).
      rewrite Hshow. simpl. rewrite app_nil_r.
      eexists. split_and!; [apply last_snoc | exact Hdone | reflexivity].
Qed.

(** A segment of ten bytes that is received in two reports, displayed after
    each and once more: three lines, the last one complete. *)
Lemma X4_ten_bytes_displayed :
  snd (tracked 10 [CallNextSegment 10; CallSetReceivedBytes 4; CallDisplay;
                   CallSetReceivedBytes 10; CallDisplay; CallDisplay; CallDisplay]) =
  [ {| shownTransferred := 4; shownTotal := 10 |};
    {| shownTransferred := 10; shownTotal := 10 |} ] /\
  snd (tracked 10 ([CallNextSegment 10; CallSetReceivedBytes 10]
                   ++ [CallDisplay; CallDisplay])) =
  snd (tracked 10 ([CallNextSegment 10; CallSetReceivedBytes 10] ++ [CallDisplay])).
Proof.
  destruct (X4_completion_line_is_last 10 [CallNextSegment 10; CallSetReceivedBytes 10])
    as (_ & Hdone).
  destruct (Hdone eq_refl) as (line & _ & _ & Hsame).
  split; [reflexivity | exact Hsame].
Defined.

(** ** The single-stream download *)

Lemma downloadCacheHttpClient_returns (SocketTimeout : Z) (h : HttpTransfer)
  (t : list event) :
  fst (downloadCacheHttpClient SocketTimeout h t) = Returned tt <-> validated h.
Proof.
  unfold downloadCacheHttpClient, validated, bind, await, emit, ret.
  split.
  - destruct (downloadResponse h) as [header|e]; [|discriminate].
    destruct (pipeResponseToStream h) as [|e|e]; try discriminate.
    intros Hrun. exists header. split_and!; try reflexivity.
    destruct header as [[|c r]|]; auto.
    right. right.
    destruct (archiveFileSize h) as [n|e]; [|discriminate].
    exists (String c r), n. split_and!; try reflexivity.
    destruct (parseInt (String c r)) as [m|]; simpl in Hrun; [|discriminate].
    destruct (n =? m) eqn:Hnm; [|discriminate].
    apply Z.eqb_eq in Hnm. congruence.
  - intros (header & -> & -> & [-> | [-> | (s & n & -> & Hsize & Hparse)]]);
      try reflexivity.
    destruct s as [|c r]; [discriminate Hparse|].
    rewrite Hsize, Hparse. simpl. rewrite Z.eqb_refl. reflexivity.
Qed.

(** X5. [downloadCacheHttpClient] returns normally exactly when the GET
    and the piping succeed and either the response has no [content-length]
    header (or an empty one), in which case nothing is validated, or
    [parseInt] of the header is the size of the file written.  In
    particular a header that [parseInt] cannot read fails the download,
    whatever was received; the error then reports NaN as the expected
    size. *)
Theorem X5_single_stream_size_check (SocketTimeout : Z) (h : HttpTransfer)
  (t : list event) :
  (fst (downloadCacheHttpClient SocketTimeout h t) = Returned tt <-> validated h) /\
  (forall header,
     downloadResponse h = Returned header ->
     pipeResponseToStream h = Piped ->
     header = None \/ header = Some "" ->
     downloadCacheHttpClient SocketTimeout h t =
     (Returned tt,
      t ++ [CoreDebug "Unable to validate download, no Content-Length header"])) /\
  (forall c r n,
     downloadResponse h = Returned (Some (String c r)) ->
     pipeResponseToStream h = Piped ->
     archiveFileSize h = Returned n ->
     parseInt (String c r) <> Some n ->
     downloadCacheHttpClient SocketTimeout h t =
     (Thrown (Error ("Incomplete download. Expected file size: "
                     +:+ showNumber (parseInt (String c r))
                     +:+ ", actual file size: " +:+ showZ n)), t)).
Proof.
  split_and!.
  - apply downloadCacheHttpClient_returns.
  - unfold downloadCacheHttpClient, bind, await, emit, ret.
    intros header -> -> [-> | ->]; reflexivity.
  - unfold downloadCacheHttpClient, bind, await, emit, ret.
    intros c r n -> -> -> Hne.
    destruct (parseInt (String c r)) as [m|]; simpl; [|reflexivity].
    destruct (n =? m) eqn:Hnm; [|reflexivity].
    apply Z.eqb_eq in Hnm. congruence.
Qed.

(** A header that is no numeral fails a download that is complete, and a
    header that starts with the right numeral passes. *)
Lemma X5_header_examples :
  downloadCacheHttpClient 5000 (streamed (Some "chunked") 7) [] =
    (Thrown (Error "Incomplete download. Expected file size: NaN, actual file size: 7"),
     []) /\
  fst (downloadCacheHttpClient 5000 (streamed (Some "7 bytes") 7) []) = Returned tt.
Proof.
  destruct (X5_single_stream_size_check 5000 (streamed (Some "chunked") 7) [])
    as (_ & _ & Hfail).
  destruct (X5_single_stream_size_check 5000 (streamed (Some "7 bytes") 7) [])
    as (Hok & _).
  split.
  - apply (Hfail "c"%char "hunked" 7); try reflexivity. discriminate.
  - apply Hok. exists (Some "7 bytes"). split_and!; try reflexivity.
    right. right. exists "7 bytes", 7. split_and!; reflexivity.
Defined.

(** ** The storage-SDK download *)

Lemma segmentsNeeded_zero B : 0 < B -> segmentsNeeded B 0 = 0%nat.
Proof.
  intros HB. unfold segmentsNeeded. rewrite Z.div_small by lia. reflexivity.
Qed.

(** The last segment is the one that reaches [L]. *)
Lemma segmentsNeeded_last B L :
  0 < B -> 0 < L ->
  exists k : nat, segmentsNeeded B L = S k /\
    Z.of_nat k * B < L <= Z.of_nat k * B + B.
Proof.
  intros HB HL. unfold segmentsNeeded.
  pose proof (Z.div_mod (L + B - 1) B ltac:(lia)) as Hdm.
  pose proof (Z.mod_pos_bound (L + B - 1) B HB) as Hr.
  set (q := (L + B - 1) / B) in *.
  assert (Hq : 1 <= q) by nia.
  exists (Z.to_nat (q - 1)). split; [lia|].
  rewrite Z2Nat.id by lia. nia.
Qed.

(** One iteration whose segment gives a buffer. *)
Lemma segmentLoop_next fuel client B L st (j : nat) loaded result :
  beforeSegment B L j st ->
  downloadToBuffer client (fst (segment B L j)) (snd (segment B L j)) =
    (loaded, Settles (Returned result)) ->
  segmentLoop (S fuel) client B L st =
  segmentLoop fuel client B L
    {| downloadProgress :=
         match loaded with
         | Some n => setReceivedBytes
                       (nextSegment (downloadProgress st) (snd (segment B L j))) n
         | None => nextSegment (downloadProgress st) (snd (segment B L j))
         end;
       requested := requested st ++ [segment B L j];
       fileData := fileData st ++ [result];
       aborted := aborted st |}.
Proof.
  intros (Hlen & Hat & Hopen) Hreply.
  assert (Hdone : isDone (downloadProgress st) = false)
    by (unfold isDone; apply Z.eqb_neq; lia).
  simpl in Hreply. simpl. rewrite Hdone, Hat, Hreply. reflexivity.
Qed.

(** [k] full segments in a row, each giving a buffer and reporting either
    nothing or its own size. *)
Lemma segmentLoop_full client B L (body : Z -> Z -> list Byte.byte) :
  0 < B ->
  forall (k j : nat) st fuel,
    beforeSegment B L j st ->
    (Z.of_nat j + Z.of_nat k) * B < L ->
    (forall i : nat, (j <= i < j + k)%nat ->
       exists loaded,
         downloadToBuffer client (fst (segment B L i)) (snd (segment B L i)) =
           (loaded,
            Settles (Returned (body (fst (segment B L i)) (snd (segment B L i))))) /\
         (loaded = None \/ loaded = Some (snd (segment B L i)))) ->
    exists st',
      segmentLoop (k + fuel) client B L st = segmentLoop fuel client B L st' /\
      beforeSegment B L (j + k) st' /\
      requested st' = requested st ++ map (segment B L) (seq j k) /\
      fileData st' =
        fileData st ++ map (fun r => body (fst r) (snd r))
                           (map (segment B L) (seq j k)) /\
      aborted st' = aborted st.
Proof.
  intros HB k. induction k as [|k IH]; intros j st fuel Hat Hroom Hok.
  - exists st. simpl. rewrite !app_nil_r, Nat.add_0_r. auto.
  - destruct (Hok j ltac:(lia)) as (loaded & Hreply & Hloaded).
    change (S k + fuel)%nat with (S (k + fuel)).
    rewrite (segmentLoop_next _ _ _ _ _ j _ _ Hat Hreply).
    match goal with |- context [segmentLoop (k + fuel) _ _ _ ?s] => set (st1 := s) end.
    assert (Hat1 : beforeSegment B L (S j) st1).
    { destruct Hat as (Hlen & Hstart & Hopen).
      unfold beforeSegment, getTransferredBytes, segment in *. subst st1.
      destruct Hloaded as [-> | ->]; simpl; split_and!; auto; nia. }
    destruct (IH (S j) st1 fuel Hat1 ltac:(lia)) as (st' & Hrun & Hat' & Hreq & Hdata & Hab).
    { intros i Hi. apply Hok. lia. }
    exists st'. split_and!.
    + exact Hrun.
    + replace (j + S k)%nat with (S j + k)%nat by lia. exact Hat'.
    + rewrite Hreq. subst st1. simpl. rewrite <- app_assoc. reflexivity.
    + rewrite Hdata. subst st1. simpl. rewrite <- app_assoc. reflexivity.
    + rewrite Hab. reflexivity.
Qed.

Lemma beforeSegment_start B L : 0 < L -> beforeSegment B L 0 (sdkStart L).
Proof. intros HL. unfold beforeSegment, getTransferredBytes. simpl. lia. Qed.

Lemma segmentLoop_done fuel client B L st :
  isDone (downloadProgress st) = true ->
  segmentLoop fuel client B L st = Some (Returned tt, st).
Proof. intros Hdone. destruct fuel; simpl; rewrite Hdone; reflexivity. Qed.

Lemma segmentPlan_last B L (k : nat) :
  segmentsNeeded B L = S k ->
  segmentPlan B L = map (segment B L) (seq 0 k) ++ [segment B L k].
Proof.
  intros Hn. unfold segmentPlan. rewrite Hn, seq_S, map_app. reflexivity.
Qed.

(** X6. With a known content length [L], [downloadCacheStorageSDK] asks
    for the blob in consecutive segments of [min(128 MiB, MAX_LENGTH)]
    bytes, the last one cut to what remains, and appends the buffers to the
    file in that order, provided each [downloadToBuffer] call gives its
    buffer and has reported the segment's size as loaded: the loop then ends
    after exactly the segments needed, without aborting, with [L] bytes
    transferred. *)
Theorem X6_sdk_segments_in_order (MAX_LENGTH SocketTimeout L : Z)
  (client : BlockBlobClient) (h : HttpTransfer)
  (body : Z -> Z -> list Byte.byte) (fuel : nat) :
  0 < MAX_LENGTH -> 0 <= L ->
  getProperties client = Returned (Some L) ->
  (forall start size,
     downloadToBuffer client start size =
     (Some size, Settles (Returned (body start size)))) ->
  (segmentsNeeded (segmentCap MAX_LENGTH) L <= fuel)%nat ->
  exists st,
    downloadCacheStorageSDK MAX_LENGTH SocketTimeout client h fuel =
      Some (ViaSegments (Returned tt) st) /\
    requested st = segmentPlan (segmentCap MAX_LENGTH) L /\
    fileData st = map (fun r => body (fst r) (snd r))
                      (segmentPlan (segmentCap MAX_LENGTH) L) /\
    aborted st = false /\
    getTransferredBytes (downloadProgress st) = L.
Proof.
  intros HM HL Hprops Hreply Hfuel.
  unfold downloadCacheStorageSDK. rewrite Hprops.
  replace (L <? 0) with false by (symmetry; apply Z.ltb_ge; lia).
  fold (segmentCap MAX_LENGTH) in *. fold (sdkStart L).
  set (B := segmentCap MAX_LENGTH) in *.
  assert (HB : 0 < B) by (unfold B, segmentCap; lia).
  destruct (Z.eq_dec L 0) as [-> | Hpos].
  - rewrite segmentLoop_done by reflexivity.
    unfold segmentPlan. rewrite segmentsNeeded_zero by exact HB.
    exists (sdkStart 0). split_and!; reflexivity.
  - destruct (segmentsNeeded_last B L HB ltac:(lia)) as (k & Hn & Hk).
    rewrite Hn in Hfuel.
    replace fuel with (k + S (fuel - S k))%nat by lia.
    destruct (segmentLoop_full client B L body HB k 0 (sdkStart L) (S (fuel - S k)))
      as (st' & Hrun & Hat & Hreq & Hdata & Hab).
    { apply beforeSegment_start. lia. }
    { lia. }
    { intros i _. eexists. split; [apply Hreply | auto]. }
    rewrite Hrun.
    rewrite (segmentLoop_next _ _ _ _ _ k _ _ Hat (Hreply _ _)).
    rewrite segmentLoop_done.
    + eexists. split; [reflexivity|]. simpl.
      rewrite (segmentPlan_last B L k Hn), map_app, Hreq, Hdata, Hab.
      destruct Hat as (Hlen & Hstart & _).
      unfold getTransferredBytes. simpl. split_and!; auto. lia.
    + destruct Hat as (Hlen & Hstart & _).
      unfold isDone, getTransferredBytes. simpl. apply Z.eqb_eq. lia.
Qed.

(** A blob of 300000000 bytes takes two segments of 128 MiB and one of
    31564544 bytes. *)
Lemma X6_three_hundred_million_bytes :
  exists st,
    downloadCacheStorageSDK 4294967296 5000 (reportingBlob 300000000)
      (streamed None 0) 3 = Some (ViaSegments (Returned tt) st) /\
    requested st =
      [(0, 134217728); (134217728, 134217728); (268435456, 31564544)] /\
    aborted st = false /\
    getTransferredBytes (downloadProgress st) = 300000000.
Proof.
  destruct (X6_sdk_segments_in_order 4294967296 5000 300000000
              (reportingBlob 300000000) (streamed None 0) zeros 3)
    as (st & Hrun & Hreq & _ & Hab & Hall).
  - lia.
  - lia.
  - reflexivity.
  - reflexivity.
  - vm_compute. lia.
  - exists st. split_and!; auto.
Defined.

(** X7. When the first [k] segments of a [downloadCacheStorageSDK]
    download give their buffers and segment [k] does not, the download
    throws at once: segment [k] is the last range requested, only the first
    [k] buffers are in the file, and [controller.abort()] is called exactly
    when the segment lost against the segment timer, in which case the error
    is the timeout error; a rejection of [downloadToBuffer] is rethrown as it
    is. *)
Theorem X7_sdk_stops_at_first_failed_segment (MAX_LENGTH SocketTimeout L : Z)
  (client : BlockBlobClient) (h : HttpTransfer)
  (body : Z -> Z -> list Byte.byte) (k : nat) (loaded : option Z)
  (bad : attempt) (e : error) (abort : bool) (fuel : nat) :
  let B := segmentCap MAX_LENGTH in
  0 < MAX_LENGTH ->
  getProperties client = Returned (Some L) ->
  Z.of_nat k * B < L ->
  (forall i : nat, (i < k)%nat ->
     downloadToBuffer client (fst (segment B L i)) (snd (segment B L i)) =
     (Some (snd (segment B L i)),
      Settles (Returned (body (fst (segment B L i)) (snd (segment B L i)))))) ->
  downloadToBuffer client (fst (segment B L k)) (snd (segment B L k)) =
    (loaded, bad) ->
  segmentFailure bad = Some (e, abort) ->
  (k < fuel)%nat ->
  exists st,
    downloadCacheStorageSDK MAX_LENGTH SocketTimeout client h fuel =
      Some (ViaSegments (Thrown e) st) /\
    requested st = map (segment B L) (seq 0 (S k)) /\
    fileData st = map (fun r => body (fst r) (snd r))
                      (map (segment B L) (seq 0 k)) /\
    aborted st = abort.
Proof.
  intros B HM Hprops Hk Hgood Hbad Hfail Hfuel.
  assert (HB : 0 < B) by (unfold B, segmentCap; lia).
  unfold downloadCacheStorageSDK. rewrite Hprops.
  replace (L <? 0) with false by (symmetry; apply Z.ltb_ge; lia).
  fold (segmentCap MAX_LENGTH). fold B. fold (sdkStart L).
  replace fuel with (k + S (fuel - S k))%nat by lia.
  destruct (segmentLoop_full client B L body HB k 0 (sdkStart L) (S (fuel - S k)))
    as (st' & Hrun & Hat & Hreq & Hdata & Hab).
  { apply beforeSegment_start. lia. }
  { lia. }
  { intros i Hi. eexists. split; [apply Hgood; lia | auto]. }
  rewrite Hrun. destruct Hat as (Hlen & Hstart & Hopen).
  assert (Hdone : isDone (downloadProgress st') = false)
    by (unfold isDone; apply Z.eqb_neq; lia).
  simpl in Hreq, Hdata. rewrite seq_S, map_app, <- Hdata, <- Hreq.
  simpl in Hbad, Hstart. simpl. rewrite Hdone, Hstart, Hbad.
  destruct bad as [[b|e']|]; simpl in Hfail; inversion Hfail; subst;
    eexists; (split; [reflexivity|]); simpl; auto.
Qed.

(** The second segment of a blob of 300000000 bytes stalls: the download
    is aborted with one buffer written. *)
Lemma X7_second_segment_times_out :
  exists st,
    downloadCacheStorageSDK 4294967296 5000 (stallingBlob 300000000 134217728)
      (streamed None 0) 5 =
      Some (ViaSegments
              (Thrown (Error "Aborting cache download as the download time exceeded the timeout."))
              st) /\
    requested st = [(0, 134217728); (134217728, 134217728)] /\
    length (fileData st) = 1%nat /\
    aborted st = true.
Proof.
  destruct (X7_sdk_stops_at_first_failed_segment 4294967296 5000 300000000
              (stallingBlob 300000000 134217728) (streamed None 0) zeros 1
              (Some 0) TimerFirst
              (Error "Aborting cache download as the download time exceeded the timeout.")
              true 5)
    as (st & Hrun & Hreq & Hdata & Hab).
  - lia.
  - reflexivity.
  - vm_compute. reflexivity.
  - intros i Hi. destruct i as [|i]; [reflexivity | lia].
  - reflexivity.
  - reflexivity.
  - lia.
  - exists st. split_and!; auto. rewrite Hdata. reflexivity.
Defined.

(** The iteration that follows the last segment when the tracker has not
    seen its bytes: a request of length 0 at offset [L]. *)
Lemma segmentLoop_extra fuel client B L st result :
  0 < B ->
  contentLength (downloadProgress st) = L ->
  isDone (downloadProgress st) = false ->
  segmentOffset (downloadProgress st) + segmentSize (downloadProgress st) = L ->
  downloadToBuffer client L 0 = (None, Settles (Returned result)) ->
  segmentLoop (S fuel) client B L st =
  Some (Returned tt,
        {| downloadProgress := nextSegment (downloadProgress st) 0;
           requested := requested st ++ [(L, 0)];
           fileData := fileData st ++ [result];
           aborted := aborted st |}).
Proof.
  intros HB Hlen Hdone Hstart Hreply. simpl. rewrite Hdone, Hstart.
  replace (Z.min B (L - L)) with 0 by lia. rewrite Hreply.
  apply segmentLoop_done. unfold isDone, getTransferredBytes. simpl.
  apply Z.eqb_eq. lia.
Qed.

(** X8. The segment loop of [downloadCacheStorageSDK] ends only through
    the tracker.  When the client gives every buffer but never reports
    progress, a download of [L > 0] bytes requests, after the segments that
    cover the blob, one more range of length 0 at offset [L], appends its
    buffer as well, and ends only then. *)
Theorem X8_sdk_without_progress_reports (MAX_LENGTH SocketTimeout L : Z)
  (client : BlockBlobClient) (h : HttpTransfer)
  (body : Z -> Z -> list Byte.byte) (fuel : nat) :
  0 < MAX_LENGTH -> 0 < L ->
  getProperties client = Returned (Some L) ->
  (forall start size,
     downloadToBuffer client start size =
     (None, Settles (Returned (body start size)))) ->
  (segmentsNeeded (segmentCap MAX_LENGTH) L < fuel)%nat ->
  exists st,
    downloadCacheStorageSDK MAX_LENGTH SocketTimeout client h fuel =
      Some (ViaSegments (Returned tt) st) /\
    requested st = segmentPlan (segmentCap MAX_LENGTH) L ++ [(L, 0)] /\
    fileData st = map (fun r => body (fst r) (snd r))
                      (segmentPlan (segmentCap MAX_LENGTH) L ++ [(L, 0)]) /\
    aborted st = false.
Proof.
  intros HM HL Hprops Hreply Hfuel.
  unfold downloadCacheStorageSDK. rewrite Hprops.
  replace (L <? 0) with false by (symmetry; apply Z.ltb_ge; lia).
  fold (segmentCap MAX_LENGTH) in *. fold (sdkStart L).
  set (B := segmentCap MAX_LENGTH) in *.
  assert (HB : 0 < B) by (unfold B, segmentCap; lia).
  destruct (segmentsNeeded_last B L HB HL) as (k & Hn & Hk).
  rewrite Hn in Hfuel.
  replace fuel with (k + S (S (fuel - S (S k))))%nat by lia.
  destruct (segmentLoop_full client B L body HB k 0 (sdkStart L)
              (S (S (fuel - S (S k)))))
    as (st' & Hrun & Hat & Hreq & Hdata & Hab).
  { apply beforeSegment_start. exact HL. }
  { lia. }
  { intros i _. eexists. split; [apply Hreply | auto]. }
  rewrite Hrun.
  rewrite (segmentLoop_next _ _ _ _ _ k _ _ Hat (Hreply _ _)).
  destruct Hat as (Hlen & Hstart & Hopen).
  rewrite (segmentLoop_extra _ _ _ _ _ (body L 0) HB).
  - eexists. split; [reflexivity|]. simpl.
    rewrite (segmentPlan_last B L k Hn), !map_app, Hreq, Hdata, Hab.
    simpl. rewrite <- !app_assoc. split_and!; reflexivity.
  - exact Hlen.
  - unfold isDone, getTransferredBytes. simpl. apply Z.eqb_neq. lia.
  - simpl. lia.
  - apply Hreply.
Qed.

(** A silent client and a blob of ten bytes: the ten bytes are requested,
    and then none at offset 10. *)
Lemma X8_ten_silent_bytes :
  exists st,
    downloadCacheStorageSDK 4294967296 5000 (silentBlob 10) (streamed None 0) 2 =
      Some (ViaSegments (Returned tt) st) /\
    requested st = [(0, 10); (10, 0)] /\
    aborted st = false.
Proof.
  destruct (X8_sdk_without_progress_reports 4294967296 5000 10 (silentBlob 10)
              (streamed None 0) zeros 2)
    as (st & Hrun & Hreq & _ & Hab).
  - lia.
  - lia.
  - reflexivity.
  - reflexivity.
  - vm_compute. lia.
  - exists st. split_and!; auto.
Defined.

(** X9. [downloadCacheStorageSDK] treats a content length that is absent
    or negative as unknown: it then requests no segment and downloads
    through [downloadCacheHttpClient] after a debug line, whatever the
    client would give, so that it returns normally exactly when that
    transfer passes the size check of [downloadCacheHttpClient].  A content
    length of 0 is known: the function returns without requesting
    anything.  A failure of [getProperties] is thrown as it is. *)
Theorem X9_sdk_unknown_or_empty_blob (MAX_LENGTH SocketTimeout : Z)
  (client : BlockBlobClient) (h : HttpTransfer) (fuel : nat) :
  let line :=
    CoreDebug "Unable to determine content length, downloading file with http-client..." in
  ((getProperties client = Returned None \/
    exists n, n < 0 /\ getProperties client = Returned (Some n)) ->
   downloadCacheStorageSDK MAX_LENGTH SocketTimeout client h fuel =
     Some (ViaHttpClient (downloadCacheHttpClient SocketTimeout h [line])) /\
   (fst (downloadCacheHttpClient SocketTimeout h [line]) = Returned tt <->
    validated h)) /\
  (getProperties client = Returned (Some 0) ->
   downloadCacheStorageSDK MAX_LENGTH SocketTimeout client h fuel =
   Some (ViaSegments (Returned tt) (sdkStart 0))) /\
  (forall e, getProperties client = Thrown e ->
   downloadCacheStorageSDK MAX_LENGTH SocketTimeout client h fuel =
   Some (PropertiesFailed e)).
Proof.
  intros line. unfold downloadCacheStorageSDK. split_and!.
  - intros Hunknown. split; [|apply downloadCacheHttpClient_returns].
    destruct Hunknown as [-> | (n & Hn & ->)].
    + reflexivity.
    + replace (n <? 0) with true by (symmetry; apply Z.ltb_lt; lia).
      reflexivity.
  - intros ->. simpl. fold (sdkStart 0).
    rewrite segmentLoop_done by reflexivity. reflexivity.
  - intros e ->. reflexivity.
Qed.

(** A blob without a content length whose stream has a header that matches
    the file. *)
Lemma X9_unsized_blob_streams :
  downloadCacheStorageSDK 4294967296 5000 unsizedBlob (streamed (Some "12") 12) 0 =
  Some (ViaHttpClient
          (Returned tt,
           [CoreDebug "Unable to determine content length, downloading file with http-client..."])).
Proof.
  destruct (X9_sdk_unknown_or_empty_blob 4294967296 5000 unsizedBlob
              (streamed (Some "12") 12) 0) as (Hunknown & _).
  destruct (Hunknown (or_introl eq_refl)) as (Hrun & _).
  rewrite Hrun. reflexivity.
Defined.

(** ** Running a command *)

Lemma append_assoc (a b c : string) : (a +:+ b) +:+ c = a +:+ (b +:+ c).
Proof. apply chars_inj. rewrite !chars_app, app_assoc. reflexivity. Qed.

Lemma append_empty (a : string) : a +:+ "" = a.
Proof. apply chars_inj. rewrite chars_app. apply app_nil_r. Qed.

(** The two listeners keep the two streams apart and in order. *)
Lemma listen_all (cs : list chunk) (out err : string) :
  fold_left listen cs (out, err) =
  (out +:+ outputOf onStdout cs, err +:+ outputOf onStderr cs).
Proof.
  revert out err. induction cs as [|[data|data] cs IH]; intros out err.
  - simpl. unfold outputOf. simpl. rewrite !append_empty. reflexivity.
  - simpl. rewrite IH. unfold outputOf. simpl. rewrite append_assoc. reflexivity.
  - simpl. rewrite IH. unfold outputOf. simpl. rewrite append_assoc. reflexivity.
Qed.

(** X10. When the command succeeds, [getCmdOutput] returns what it wrote
    to standard output, chunk after chunk in the order of arrival, and
    nothing of what it wrote to standard error; unless the caller passes
    listeners of its own in [options], which replace the capturing ones:
    the result is then the empty string, whatever the command wrote. *)
Theorem X10_command_output_is_stdout
  (exec : string -> list string -> ExecOptions -> Execution)
  (cmd : string) (args : list string) (options : ExecOptions) :
  rejection (exec cmd args options) = None ->
  getCmdOutput exec cmd args options =
  inl (if listeners options then ""
       else outputOf onStdout (chunks (exec cmd args options))).
Proof.
  intros Hok. unfold getCmdOutput. rewrite Hok.
  destruct (listeners options); [reflexivity|].
  rewrite listen_all. reflexivity.
Qed.

(** The version of a tool, with a notice on standard error in between. *)
Lemma X10_version_line :
  getCmdOutput versionCommand "rustc" ["-vV"] {| listeners := false |} =
    inl "rustc 1.75.0 (stable)" /\
  getCmdOutput versionCommand "rustc" ["-vV"] {| listeners := true |} = inl "".
Proof.
  split.
  - apply (X10_command_output_is_stdout versionCommand "rustc" ["-vV"]
             {| listeners := false |}).
    reflexivity.
  - apply (X10_command_output_is_stdout versionCommand "rustc" ["-vV"]
             {| listeners := true |}).
    reflexivity.
Defined.

(** X11. When the command fails, [getCmdOutput] rethrows the error of
    [exec] with [commandFailed] set, and [reportError] on what it threw
    logs two lines, never the stack: the command followed by a space and
    its arguments separated by spaces (so a command without arguments is
    shown with a trailing space), and everything the command wrote to
    standard error until it failed (nothing, with listeners of the
    caller). *)
Theorem X11_failed_command_is_reported
  (exec : string -> list string -> ExecOptions -> Execution)
  (cmd : string) (args : list string) (options : ExecOptions) (e : ExecError) :
  rejection (exec cmd args options) = Some e ->
  exists thrown,
    getCmdOutput exec cmd args options = inr thrown /\
    stack thrown = stack e /\
    reportError thrown =
      [ "Command failed: " +:+ cmd +:+ " " +:+ join " " args;
        if listeners options then ""
        else outputOf onStderr (chunks (exec cmd args options)) ].
Proof.
  intros Hfail. unfold getCmdOutput. rewrite Hfail.
  destruct (listeners options).
  - eexists. split_and!; reflexivity.
  - rewrite listen_all. eexists. split_and!; reflexivity.
Qed.

(** A failed build, run without arguments. *)
Lemma X11_failed_build :
  exists thrown,
    getCmdOutput failingBuild "cargo" [] {| listeners := false |} = inr thrown /\
    stack thrown = Some "Error: exit code 101" /\
    reportError thrown =
      [ "Command failed: cargo "; "warning: unusederror: E0308" ].
Proof.
  destruct (X11_failed_command_is_reported failingBuild "cargo" []
              {| listeners := false |}
              {| stack := Some "Error: exit code 101"; commandFailed := None |}
              eq_refl)
    as (thrown & Hrun & Hstack & Hreport).
  exists thrown. split_and!; auto.
Defined.

(** ** Resolution and saving together *)

(** X12. A primary key that is present takes precedence over every
    restore key: when the probe of the primary key succeeds, [getCacheEntry]
    makes that one request and no listing request, logs nothing, and gives
    the same result and trace whatever the restore keys are. *)
Theorem X12_primary_hit_precedes_restore_keys (w : World) (primaryKey : string)
  (restoreKeys restoreKeys' paths : list string)
  (options : option InternalCacheOptions) (t : list event) :
  probe w (Some primaryKey) = Returned tt ->
  getCacheEntry w (primaryKey :: restoreKeys) paths options t =
    getCacheEntry w (primaryKey :: restoreKeys') paths options t /\
  snd (getCacheEntry w (primaryKey :: restoreKeys) paths options t) =
    t ++ [HeadObject (bucket w) (location w (Some primaryKey))] /\
  listRequests (snd (getCacheEntry w (primaryKey :: restoreKeys) paths options [])) = [].
Proof.
  intros Hprobe.
  rewrite !getCacheEntry_hit by (simpl; eauto).
  split_and!; reflexivity.
Qed.

(** With every probed object present, a restore key changes nothing. *)
Lemma X12_present_primary_key :
  getCacheEntry (plainWorld primaryPresent) ["key"; "restore"] ["target"] None [] =
    getCacheEntry (plainWorld primaryPresent) ["key"] ["target"] None [] /\
  snd (getCacheEntry (plainWorld primaryPresent) ["key"; "restore"] ["target"] None []) =
    [HeadObject (Some "bucket") "caches/owner/repo/key"].
Proof.
  destruct (X12_primary_hit_precedes_restore_keys (plainWorld primaryPresent)
              "key" ["restore"] [] ["target"] None [] eq_refl)
    as (Hsame & Htrace & _).
  split; [exact Hsame | exact Htrace].
Defined.

(** X13. [getCacheEntry] returns the entry without an [objectKey] only as
    a last resort: exactly when the probe of the primary key fails and every
    restore key gives no match (its listing is empty or fails).  As soon as
    one key matches, the entry names an object. *)
Theorem X13_miss_only_when_nothing_matches (w : World) (keys paths : list string)
  (options : option InternalCacheOptions) (t : list event) :
  (exists entry,
     fst (getCacheEntry w keys paths options t) = Returned (Some entry) /\
     objectKey entry = None) <->
  ((exists e, probe w (head keys) = Thrown e) /\
   Forall (fun k => noMatch (listing w (createObjectStorageClient w) k)) (tail keys)).
Proof.
  destruct (probe w (head keys)) as [u|e] eqn:Hprobe.
  - rewrite getCacheEntry_hit by eauto. simpl. split.
    + intros (entry & Hentry & Hnone). inversion Hentry; subst. discriminate.
    + intros [[e He] _]. discriminate.
  - destruct (getCacheEntry_fallthrough w keys paths options t e Hprobe)
      as (r & t' & Hrun & Hget).
    destruct (restore_run w (createObjectStorageClient w) (versionOf w paths options)
                (tail keys) (t ++ probeEvents w (head keys)))
      as (r' & t'' & Hrun' & _ & Hres).
    rewrite Hrun in Hrun'. inversion Hrun'; subst r'. clear Hrun'.
    rewrite Hget. destruct r as [entry|]; simpl.
    + destruct Hres as (skipped & k & later & contents & i & best & Hkeys & _ &
                        Hlist & (Hlook & _) & ->).
      split.
      * intros (entry & Hentry & Hnone). inversion Hentry; subst. discriminate.
      * intros [_ Hall]. exfalso. rewrite Hkeys in Hall.
        apply Forall_app in Hall as [_ Hall]. inversion Hall as [|? ? Hk _]; subst.
        destruct Hk as [Hempty | [e' He']]; rewrite Hlist in *.
        -- inversion Hempty; subst. rewrite lookup_nil in Hlook. discriminate.
        -- discriminate.
    + split.
      * intros _. split; [eauto | exact Hres].
      * intros _. eexists. split; reflexivity.
Qed.

(** An empty bucket gives the entry without an object, and a bucket with
    objects under the second restore key does not. *)
Lemma X13_empty_bucket_misses :
  (exists entry,
     fst (getCacheEntry (plainWorld silentClient) ["key"; "build-a"; "build-b"]
            ["target"] None []) = Returned (Some entry) /\
     objectKey entry = None) /\
  fst (getCacheEntry (plainWorld twoBuilds) ["key"; "build-a"; "build-b"]
         ["target"] None []) =
  Returned (Some {| cacheKey := Some "caches/owner/repo/build-b-2";
                    cacheVersion := Some "target|1.0";
                    objectKey := Some "caches/owner/repo/build-b-2" |}).
Proof.
  split; [|reflexivity].
  apply (X13_miss_only_when_nothing_matches (plainWorld silentClient)
           ["key"; "build-a"; "build-b"] ["target"] None []).
  split.
  - eexists. reflexivity.
  - repeat constructor.
Defined.

(** X14. The version fingerprint depends on the platform only through the
    Windows marker.  With [enableCrossOsArchive] set, or between two
    platforms other than win32, the components hashed are the same; on
    win32 without the flag they are those of any other platform with
    "windows-only" inserted before the salt, and the text that is hashed
    differs. *)
Theorem X14_version_across_platforms (w w' : World) (paths : list string)
  (cm : option string) (x : option bool) :
  (x = Some true \/ (platform w <> "win32" /\ platform w' <> "win32") ->
   versionComponents w paths cm x = versionComponents w' paths cm x) /\
  (platform w = "win32" -> platform w' <> "win32" -> x <> Some true ->
   exists front,
     versionComponents w' paths cm x = front ++ [versionSalt] /\
     versionComponents w paths cm x = front ++ ["windows-only"; versionSalt] /\
     join "|" (versionComponents w paths cm x) <>
     join "|" (versionComponents w' paths cm x)).
Proof.
  split.
  - intros [-> | [Hw Hw']]; unfold versionComponents.
    + rewrite !andb_false_r. reflexivity.
    + apply String.eqb_neq in Hw, Hw'. rewrite Hw, Hw'. reflexivity.
  - intros Hw Hw' Hx. unfold versionComponents.
    apply String.eqb_neq in Hw'. rewrite Hw, Hw'. simpl.
    assert (Hflag : negb match x with Some b => b | None => false end = true)
      by (destruct x as [[|]|]; [congruence | reflexivity | reflexivity]).
    rewrite Hflag.
    set (front := match cm with
                  | Some (String c r) => paths ++ [String c r]
                  | _ => paths
                  end).
    exists front. rewrite <- app_assoc. split_and!; try reflexivity.
    simpl. destruct front as [|a front]; [discriminate|].
    rewrite !(join_app "|" (a :: front)) by discriminate.
    intros Heq. apply (f_equal chars) in Heq. rewrite !chars_app in Heq.
    apply app_inv_head in Heq. discriminate.
Qed.

(** The text hashed for the same selectors on Windows and on Linux. *)
Lemma X14_windows_and_linux :
  exists front,
    versionComponents (plainWorld silentClient) ["target"] (Some "zstd") None =
      front ++ ["1.0"] /\
    versionComponents (windowsWorld silentClient) ["target"] (Some "zstd") None =
      front ++ ["windows-only"; "1.0"] /\
    getCacheVersion (windowsWorld silentClient) ["target"] (Some "zstd") None =
      "target|zstd|windows-only|1.0" /\
    getCacheVersion (windowsWorld silentClient) ["target"] (Some "zstd") (Some true) =
      getCacheVersion (plainWorld silentClient) ["target"] (Some "zstd") (Some true).
Proof.
  destruct (X14_version_across_platforms (windowsWorld silentClient)
              (plainWorld silentClient) ["target"] (Some "zstd") None)
    as (_ & Hdiffer).
  destruct (Hdiffer eq_refl ltac:(discriminate) ltac:(discriminate))
    as (front & Hlinux & Hwin & _).
  exists front. split_and!; [exact Hlinux | exact Hwin | reflexivity | reflexivity].
Defined.




(** ** The display timer of the concurrent downloader *)

Lemma sumCounts_elem (l : list QueuedDownload) d :
  (forall x, x ∈ l -> 0 < q_count x) -> d ∈ l -> q_count d <= sumCounts l.
Proof.
  induction l as [|a l IH]; intros Hpos Hd.
  - apply elem_of_nil in Hd. tauto.
  - simpl. apply elem_of_cons in Hd as [-> | Hd].
    + assert (0 <= sumCounts l); [|lia].
      clear -Hpos. induction l as [|b l IH]; simpl; [lia|].
      assert (0 < q_count b) by (apply Hpos; rewrite !elem_of_cons; auto).
      assert (0 <= sumCounts l); [|lia].
      apply IH. intros x Hx. apply Hpos.
      rewrite elem_of_cons in Hx. rewrite !elem_of_cons. tauto.
    + assert (0 < q_count a) by (apply Hpos; rewrite elem_of_cons; auto).
      assert (q_count d <= sumCounts l); [|lia].
      apply IH; [|exact Hd]. intros x Hx. apply Hpos. rewrite elem_of_cons. auto.
Qed.

Lemma sumCounts_perm (l1 l2 : list QueuedDownload) :
  l1 ≡ₚ l2 -> sumCounts l1 = sumCounts l2.
Proof. induction 1; simpl; lia. Qed.

(** A download that has thrown out of its loops has not received all the
    bytes. *)
Lemma Inv_rejected_short net limit len (m : machine) e :
  Inv net limit len m -> pc m = Rejected e ->
  contentLength (progress m) = len /\
  getTransferredBytes (progress m) = bytesDownloaded m /\
  bytesDownloaded m < len.
Proof.
  intros (W & A & P & _ & _ & Hw & Hperm & _ & _ & _ & Hbytes & Hprog & Hcl &
          Hso & Hpl) Hpc.
  rewrite Hpc in Hpl. destruct Hpl as (d & Hd & Hfail).
  unfold getTransferredBytes. rewrite Hso, Hprog. split_and!; [exact Hcl | lia |].
  assert (Hpos : forall x, x ∈ blocks len -> 0 < q_count x).
  { intros x [i Hi]%list_elem_of_lookup. apply blocks_lookup in Hi. lia. }
  assert (HdW : d ∉ W).
  { intros [i Hi]%list_elem_of_lookup.
    destruct (Forall2_lookup_r _ _ _ _ _ Hw Hi) as (w & _ & _ & _ & Hget).
    congruence. }
  assert (Hrest : d ∈ A ++ P).
  { rewrite <- Hperm in Hd. rewrite elem_of_app in Hd. tauto. }
  assert (Hsum : sumCounts W + sumCounts (A ++ P) = Z.max 0 len).
  { rewrite <- sumCounts_app, (sumCounts_perm _ _ Hperm).
    unfold blocks. fold (blocksFrom len 0). rewrite blocksFrom_sum. lia. }
  assert (Hd' : q_count d <= sumCounts (A ++ P)).
  { apply sumCounts_elem; [|exact Hrest].
    intros x Hx. apply Hpos. rewrite <- Hperm. rewrite elem_of_app. auto. }
  specialize (Hpos d Hd).
  assert (0 < len).
  { destruct (Z_lt_dec 0 len) as [|Hle]; [assumption|].
    unfold blocks in Hd. fold (blocksFrom len 0) in Hd.
    rewrite blocksFrom_ge in Hd by lia. apply elem_of_nil in Hd. tauto. }
  rewrite Hbytes. lia.
Qed.

(** The downloader itself never calls [display]. *)
Lemma steps_leave_display net limit schedule (m : machine) :
  displayedComplete (progress (steps net limit schedule m)) =
  displayedComplete (progress m).
Proof.
  revert m. induction schedule as [|pick schedule IH]; intros m; [reflexivity|].
  simpl. rewrite IH. unfold step, waitAndWrite.
  destruct (pc m); try reflexivity.
  - destruct (pop (downloads m)) as [[d rest]|]; reflexivity.
  - destruct (_ !! _) as [[s|e]|]; reflexivity.
  - destruct (actives m >? 0); [|reflexivity].
    destruct (_ !! _) as [[s|e]|]; reflexivity.
Qed.

(** A timer on a tracker that is not done, and only displays, never
    stops. *)
Lemma displayTimer_unfinished (n : nat) (p : DownloadProgress) :
  isDone p = false -> displayedComplete p = false ->
  displayTimer n p =
  (repeat {| shownTransferred := getTransferredBytes p;
             shownTotal := contentLength p |} n, true).
Proof.
  intros Hdone Hflag. induction n as [|n IH]; [reflexivity|].
  simpl. unfold displayCallback, display. rewrite Hflag, Hdone. simpl.
  rewrite Hdone. simpl. rewrite IH. reflexivity.
Qed.

(** X16. [downloadCacheHttpClientConcurrent] arms the display timer and
    never stops it, so the timer stops only by finding the tracker done.
    After a download that threw out of its loops, and after one that
    returned for a negative content length, the tracker is not done: the
    timer arms itself again at every firing, for ever, printing the same
    line each time.  After a download that returned for a content length of
    at least 0 the next firing prints the completion line and is the
    last. *)
Theorem X16_display_timer_after_the_download (header : string) (L : Z)
  (net : network) (options : DownloadOptions) (schedule : list nat) (n : nat) :
  parseInt header = Some L ->
  let m := downloadCacheHttpClientConcurrent
             (Returned (Some header)) net options schedule in
  ((exists e, pc m = Rejected e) \/ (pc m = Finished /\ L < 0) ->
   displayTimer n (progress m) =
   (repeat {| shownTransferred := bytesDownloaded m; shownTotal := L |} n, true)) /\
  (pc m = Finished -> 0 <= L ->
   displayTimer (S n) (progress m) =
   ([ {| shownTransferred := L; shownTotal := L |} ], false)).
Proof.
  intros Hparse. unfold downloadCacheHttpClientConcurrent. rewrite Hparse.
  cbv zeta. set (limit := concurrencyLimit options).
  pose proof (Inv_steps net limit L schedule _ (Inv_start net limit L)) as HI.
  pose proof (steps_leave_display net limit schedule (start L)) as Hflag.
  simpl in Hflag.
  set (m := steps net limit schedule (start L)) in *.
  assert (Hfacts : contentLength (progress m) = L /\
                   getTransferredBytes (progress m) = bytesDownloaded m).
  { destruct HI as (W & A & P & _ & _ & _ & _ & _ & _ & _ & _ & Hprog & Hcl & Hso & _).
    unfold getTransferredBytes. rewrite Hso, Hprog. split; [exact Hcl | lia]. }
  destruct Hfacts as [Hcl Htr].
  split.
  - intros Hcase.
    assert (Hshort : bytesDownloaded m <> L).
    { destruct Hcase as [[e Hpc] | [Hpc Hneg]].
      - destruct (Inv_rejected_short net limit L m e HI Hpc) as (_ & _ & Hlt). lia.
      - destruct (Inv_finished net limit L m HI Hpc) as (_ & _ & Hbytes & _).
        rewrite Hbytes. unfold blocks. fold (blocksFrom L 0).
        rewrite blocksFrom_sum. lia. }
    rewrite displayTimer_unfinished; [rewrite Htr, Hcl; reflexivity | | exact Hflag].
    unfold isDone. rewrite Htr, Hcl. apply Z.eqb_neq. exact Hshort.
  - intros Hpc HL.
    destruct (Inv_finished net limit L m HI Hpc) as (_ & _ & Hbytes & _).
    assert (Hall : bytesDownloaded m = L).
    { rewrite Hbytes. unfold blocks. fold (blocksFrom L 0).
      rewrite blocksFrom_sum. lia. }
    assert (Hdone : isDone (progress m) = true).
    { unfold isDone. rewrite Htr, Hcl. apply Z.eqb_eq. exact Hall. }
    simpl. unfold displayCallback, display. rewrite Hflag, Hdone.
    unfold isDone, getTransferredBytes in *. simpl. rewrite Hdone. simpl.
    rewrite Hcl. replace (segmentOffset (progress m) + receivedBytes (progress m))
      with L by (apply Z.eqb_eq in Hdone; lia).
    reflexivity.
Qed.

(** Three firings after a download of 100 bytes that failed on a network
    where every attempt times out. *)
Lemma X16_timer_after_dead_network :
  displayTimer 3
    (progress (downloadCacheHttpClientConcurrent (Returned (Some "100"))
                 deadNetwork (withConcurrency 4) [0; 0; 0; 0]%nat)) =
  (repeat {| shownTransferred := 0; shownTotal := 100 |} 3, true).
Proof.
  destruct (X16_display_timer_after_the_download "100" 100 deadNetwork
              (withConcurrency 4) [0; 0; 0; 0]%nat 3 eq_refl) as (Hrun & _).
  apply Hrun. left. eexists. reflexivity.
Defined.

(** ** The order in which blocks are started *)

(** The queue is always what is left of the block list after some first
    blocks. *)
Lemma steps_queue_suffix net limit len schedule :
  exists n : nat,
    downloads (steps net limit schedule (start len)) = rev (drop n (blocks len)).
Proof.
  assert (Hgen : forall m,
    (exists n : nat, downloads m = rev (drop n (blocks len))) ->
    exists n : nat, downloads (steps net limit schedule m) = rev (drop n (blocks len))).
  { induction schedule as [|pick schedule IH]; intros m Hm; [exact Hm|].
    simpl. apply IH. destruct Hm as [n Hn].
    unfold step, waitAndWrite. destruct (pc m); simpl; eauto.
    - rewrite Hn. destruct (drop n (blocks len)) as [|d rest] eqn:Hdrop.
      + rewrite pop_rev_nil. simpl. exists n. rewrite Hn, Hdrop. reflexivity.
      + rewrite pop_rev_cons. simpl. exists (S n).
        replace (S n) with (n + 1)%nat by lia.
        rewrite <- drop_drop, Hdrop. reflexivity.
    - destruct (_ !! _) as [[s|e]|]; simpl; eauto.
    - destruct (actives m >? 0); simpl; eauto.
      destruct (_ !! _) as [[s|e]|]; simpl; eauto. }
  apply Hgen. exists 0%nat. reflexivity.
Qed.

(** X17. [downloadCacheHttpClientConcurrent] starts the blocks in
    ascending order of offset, whatever completes first: at every point of
    every run the blocks still queued are the blocks that follow the first
    [k] of the partition, [k] being the number of blocks written or in
    flight, and they are queued last block first (the array was reversed to
    be popped). *)
Theorem X17_blocks_start_in_ascending_order (header : string) (L : Z)
  (net : network) (options : DownloadOptions) (schedule : list nat) :
  parseInt header = Some L ->
  let m := downloadCacheHttpClientConcurrent
             (Returned (Some header)) net options schedule in
  downloads m =
  rev (drop (length (archive m) + size (activeDownloads m)) (blocks L)).
Proof.
  intros Hparse. unfold downloadCacheHttpClientConcurrent. rewrite Hparse.
  cbv zeta. set (limit := concurrencyLimit options).
  pose proof (Inv_steps net limit L schedule _ (Inv_start net limit L)) as HI.
  destruct (steps_queue_suffix net limit L schedule) as [n Hn].
  fold limit in Hn.
  set (m := steps net limit schedule (start L)) in *.
  destruct HI as (W & A & P & Hq & Hact & Hw & Hperm & _).
  assert (Hsize : size (activeDownloads m) = length A).
  { rewrite <- length_map_to_list, (Permutation_length Hact), length_map.
    reflexivity. }
  assert (Hwritten : length (archive m) = length W)
    by (eapply Forall2_length, Hw).
  apply Permutation_length in Hperm. rewrite !length_app in Hperm.
  assert (Hlen : length (downloads m) = length P)
    by (rewrite Hq; apply length_rev).
  rewrite Hn in Hlen. rewrite length_rev, length_drop in Hlen.
  rewrite Hn, Hsize, Hwritten. f_equal.
  destruct (le_lt_dec (length (blocks L)) n) as [Hbig|Hsmall].
  - rewrite !drop_ge by lia. reflexivity.
  - f_equal. lia.
Qed.

(** Two fetches in flight over three blocks: after the first write, the
    third block alone is still queued. *)
Lemma X17_third_block_waits :
  downloads (downloadCacheHttpClientConcurrent (Returned (Some "10000000"))
               steadyNetwork (withConcurrency 2) [0; 0; 1]%nat) =
  [ {| q_offset := 8388608; q_count := 1611392 |} ].
Proof.
  rewrite (X17_blocks_start_in_ascending_order "10000000" 10000000 steadyNetwork
             (withConcurrency 2) [0; 0; 1]%nat eq_refl).
  reflexivity.
Defined.
